(** * eazye: the IMAP retrieval pipeline and the visible-text extractor

    A shallow embedding of [eazye.go].  The IMAP connection ([c.Imap]), the
    mail parser ([mail.ReadMessage]) and the HTML tokenizer are libraries the
    package calls; the first two are interfaces here ([Session],
    [MailReader]), the tokenizer is a token stream.  The goroutine started by
    [generateMail] is the only producer on its channel, so the channel is
    represented by the chronological history of what that producer does:
    the commands it issues on the session, the responses it sends and the
    close of the channel.  The consumer is taken to receive until the
    channel is closed, so that no send of the worker waits for ever. *)

From Stdlib Require Import ZArith NArith Ascii String.
From stdpp Require Import base strings list gmap sorting.

Local Open Scope string_scope.
Local Open Scope list_scope.
Local Open Scope N_scope.

#[local] Set Warnings "-clear-no-such-hyp,-abstract-large-number".

(** ** Values of the IMAP library *)

(** Go's [error], identified with its message. *)
Definition error := string.

(** A byte string from the codes of its bytes. *)
Definition bytes (codes : list N) : string :=
  foldr (λ c s, String (ascii_of_N c) s) "" codes.

(** [imap.Field]: nil, a number or a string of bytes. *)
Inductive Field :=
| FNil
| FNumber (n : N)
| FBytes (b : string).

(** [imap.AsNumber]: the number, zero for any other field. *)
Definition AsNumber (f : Field) : N :=
  match f with FNumber n => n | _ => 0 end.

(** [imap.AsBytes]: the bytes, none for any other field. *)
Definition AsBytes (f : Field) : string :=
  match f with FBytes b => b | _ => "" end.

(** [imap.FieldMap]; indexing a missing key gives the nil field. *)
Abbreviation FieldMap := (gmap string Field).

Definition index (m : FieldMap) (k : string) : Field :=
  default FNil (m !! k).

(** [imap.SeqSet], a set of message numbers. *)
Abbreviation SeqSet := (gset N).

Definition AddNum (seq : SeqSet) (n : N) : SeqSet := seq ∪ {[ n ]}.
Arguments AddNum : simpl never.

Definition Empty (seq : SeqSet) : bool := bool_decide (seq = ∅).

(** The commands the package issues. *)
Inductive Command :=
| CSearch (specs : list string)
| CFetch (seq : SeqSet) (items : list string)
| CStore (seq : SeqSet) (item flag : string).

#[export] Instance Command_eq_dec : EqDecision Command.
Proof. solve_decision. Defined.

(** [imap.Wait] of a command on the connection: the new state of the session
    together with the error, or with what the code reads from [cmd.Data]
    (the search results of each response, the attributes of each fetched
    message). *)
Class Session (Conn : Type) := {
  UIDSearch : list string → Conn → Conn * (error + list (list N));
  UIDFetch : SeqSet → list string → Conn → Conn * (error + list FieldMap);
  UIDStore : SeqSet → string → string → Conn → Conn * option error
}.

(** [mail.ReadMessage]. *)
Class MailReader (Msg : Type) := ReadMessage : string → Msg + error.

(** ** Email and Response *)

Record Email (Msg : Type) := mkEmail {
  ID : Field;
  Message : option Msg
}.
Arguments mkEmail {Msg} _ _.
Arguments ID {Msg} _.
Arguments Message {Msg} _.

Record Response (Msg : Type) := mkResponse {
  REmail : Email Msg;
  Err : option error
}.
Arguments mkResponse {Msg} _ _.
Arguments REmail {Msg} _.
Arguments Err {Msg} _.

(** [Response{Email: email}] and [Response{Err: err}]. *)
Definition emailResponse {Msg} (email : Email Msg) : Response Msg :=
  mkResponse email None.

Definition errResponse {Msg} (err : error) : Response Msg :=
  mkResponse (mkEmail FNil None) (Some err).

(** ** The history of one retrieval call *)

(** A command with the error [imap.Wait] returned for it, a send on the
    channel, the close of the channel. *)
Inductive Event (Msg : Type) :=
| EvCmd (c : Command) (err : option error)
| EvSend (r : Response Msg)
| EvClose.
Arguments EvCmd {Msg} _ _.
Arguments EvSend {Msg} _.
Arguments EvClose {Msg}.

Record World (Conn Msg : Type) := mkWorld {
  sess : Conn;
  events : list (Event Msg)
}.
Arguments mkWorld {Conn Msg} _ _.
Arguments sess {Conn Msg} _.
Arguments events {Conn Msg} _.

Definition emit {Conn Msg} (e : Event Msg) (w : World Conn Msg) : World Conn Msg :=
  mkWorld (sess w) (events w ++ [e]).

(** [responses <- r] *)
Definition send {Conn Msg} (r : Response Msg) (w : World Conn Msg)
    : World Conn Msg :=
  emit (EvSend r) w.

(** [close(responses)] *)
Definition close {Conn Msg} (w : World Conn Msg) : World Conn Msg :=
  emit EvClose w.

(** A command on [c.Imap]: the session moves to [s'], the command and its
    outcome are logged. *)
Definition issue {Conn Msg} (c : Command) (err : option error) (s' : Conn)
    (w : World Conn Msg) : World Conn Msg :=
  mkWorld s' (events w ++ [EvCmd c err]).

Definition outcome {A} (r : error + A) : option error :=
  match r with inl err => Some err | inr _ => None end.

(** What the consumer receives, what the server receives, how often the
    channel was closed. *)
Definition stream {Msg} (evs : list (Event Msg)) : list (Response Msg) :=
  omap (λ e, match e with EvSend r => Some r | _ => None end) evs.

Definition commands {Msg} (evs : list (Event Msg)) : list Command :=
  omap (λ e, match e with EvCmd c _ => Some c | _ => None end) evs.

Definition closes {Msg} (evs : list (Event Msg)) : nat :=
  length (omap (λ e, match e with EvClose => Some () | _ => None end) evs).

(** ** time.Time and its Format

    A [time.Time] is seen through [t.Date()], the civil date in the time's
    own location, which is all the layout [dateFormat] prints. *)

Inductive Month :=
| January | February | March | April | May | June
| July | August | September | October | November | December.

Record Time := mkTime {
  Year : Z;
  Mon : Month;
  Day : Z
}.

Definition longMonthNames (m : Month) : string :=
  match m with
  | January => "January" | February => "February" | March => "March"
  | April => "April" | May => "May" | June => "June"
  | July => "July" | August => "August" | September => "September"
  | October => "October" | November => "November" | December => "December"
  end.

Definition monthNumber (m : Month) : Z :=
  match m with
  | January => 1 | February => 2 | March => 3 | April => 4 | May => 5
  | June => 6 | July => 7 | August => 8 | September => 9 | October => 10
  | November => 11 | December => 12
  end%Z.

Definition digitChar (d : N) : ascii := ascii_of_N (48 + d).

(** The decimal digits of [u], most significant first. *)
Fixpoint utod (fuel : nat) (u : N) (acc : string) : string :=
  let acc' := String (digitChar (u mod 10)) acc in
  match fuel with
  | O => acc'
  | S fuel' => if u / 10 =? 0 then acc' else utod fuel' (u / 10) acc'
  end.

Fixpoint zeros (n : nat) : string :=
  match n with O => "" | S n' => String "0" (zeros n') end.

(** [appendInt]: a minus sign for a negative [x], then the digits of its
    absolute value padded with zeros to [width]. *)
Definition appendInt (x : Z) (width : nat) : string :=
  let u := Z.abs_N x in
  let ds := utod (N.size_nat u) u "" in
  (if (x <? 0)%Z then "-" else "") +:+
  zeros (width - String.length ds) +:+ ds.

(** [Time.Format]: the layout is cut at each reference-time element; of
    these the date elements are interpreted, every other byte is copied. *)
Fixpoint Format (layout : string) (t : Time) : string :=
  match layout with
  | String "J" (String "a" (String "n" (String "u" (String "a"
      (String "r" (String "y" rest)))))) =>
      longMonthNames (Mon t) +:+ Format rest t
  | String "J" (String "a" (String "n" rest)) =>
      substring 0 3 (longMonthNames (Mon t)) +:+ Format rest t
  | String "2" (String "0" (String "0" (String "6" rest))) =>
      appendInt (Year t) 4 +:+ Format rest t
  | String "0" (String "1" rest) =>
      appendInt (monthNumber (Mon t)) 2 +:+ Format rest t
  | String "0" (String "2" rest) =>
      appendInt (Day t) 2 +:+ Format rest t
  | String c rest => String c (Format rest t)
  | EmptyString => ""
  end.

Definition dateFormat : string := "02-Jan-2006".

(** ** The retrieval pipeline *)

Section Pipeline.
Context {Conn Msg : Type} `{!Session Conn, !MailReader Msg}.

Abbreviation world := (World Conn Msg).

(** [newEmail]: header, blank line and body are parsed as one message. *)
Definition newEmail (msgFields : FieldMap) : Email Msg + error :=
  let message :=
    AsBytes (index msgFields "RFC822.HEADER") +:+ bytes [10; 10] +:+
    AsBytes (index msgFields "BODY[]") in
  match ReadMessage message with
  | inr err => inr ("unable to read header: " +:+ err)
  | inl msg => inl (mkEmail (index msgFields "UID") (Some msg))
  end.

(** [alterEmail]: one UID STORE on the one-element set of the email's
    number. *)
Definition alterEmail (email : Email Msg) (flag : string) (plus : bool)
    (w : world) : world * option error :=
  let UID := AsNumber (ID email) in
  let flg := if plus then "+FLAGS" else "-FLAGS" in
  let fSeq := AddNum ∅ UID in
  let '(s', err) := UIDStore fSeq flg flag (sess w) in
  let w' := issue (CStore fSeq flg flag) err s' w in
  match err with
  | Some e => (w', Some e)
  | None => (w', None)
  end.

Definition DeleteEmail (email : Email Msg) : world → world * option error :=
  alterEmail email "\DELETED" true.

Definition SetAsUnread (email : Email Msg) : world → world * option error :=
  alterEmail email "\SEEN" false.


(** [findEmails]: the search terms of the mode, one UID SEARCH. *)
Definition searchSpecs (search : string) (since : option Time) : list string :=
  let specs := if bool_decide (0 < String.length search)%nat then [search] else [] in
  match since with
  | Some t => specs ++ ["SINCE"; Format dateFormat t]
  | None => specs
  end.

Definition findEmails (search : string) (since : option Time) (w : world)
    : world * (list (list N) + error) :=
  let specs := searchSpecs search since in
  let '(s', r) := UIDSearch specs (sess w) in
  let w' := issue (CSearch specs) (outcome r) s' w in
  match r with
  | inl err => (w', inr ("uid search failed: " +:+ err))
  | inr data => (w', inl data)
  end.

(** The first loop of [getEmails]: every UID of every search response goes
    into the set and is counted. *)
Definition collectUIDs (data : list (list N)) : SeqSet * nat :=
  foldl (λ acc rsp,
           foldl (λ acc uid, (AddNum acc.1 uid, S acc.2)) acc rsp)
        (∅, O) data.

Definition fetchItems : list string :=
  ["INTERNALDATE"; "BODY[]"; "UID"; "RFC822.HEADER"].

(** How one turn of the second loop ends: with the next record, or with
    the [return] that leaves [getEmails]. *)
Inductive Flow := Next | Return.

(** The body of the loop over the fetched records. *)
Definition processRecord (markAsRead delete : bool) (msgFields : FieldMap)
    (w : world) : world * Flow :=
  match msgFields !! "RFC822.HEADER" with
  | None => (w, Next)
  | Some _ =>
    match newEmail msgFields with
    | inr err => (send (errResponse ("unable to parse email: " +:+ err)) w, Return)
    | inl email =>
      let w := send (emailResponse email) w in
      let '(w, err) := if markAsRead then (w, None) else SetAsUnread email w in
      match err with
      | Some e => (send (errResponse ("unable to remove seen flag: " +:+ e)) w, Return)
      | None =>
        let '(w, err) := if delete then DeleteEmail email w else (w, None) in
        match err with
        | Some e => (send (errResponse ("unable to delete email: " +:+ e)) w, Return)
        | None => (w, Next)
        end
      end
    end
  end.

Fixpoint processRecords (markAsRead delete : bool) (data : list FieldMap)
    (w : world) : world * Flow :=
  match data with
  | [] => (w, Next)
  | msgFields :: data' =>
    match processRecord markAsRead delete msgFields w with
    | (w', Next) => processRecords markAsRead delete data' w'
    | (w', Return) => (w', Return)
    end
  end.

Definition getEmails (data : list (list N)) (markAsRead delete : bool)
    (w : world) : world :=
  let '(seq, msgCount) := collectUIDs data in
  if Empty seq then w
  else
    let '(s', r) := UIDFetch seq fetchItems (sess w) in
    let w := issue (CFetch seq fetchItems) (outcome r) s' w in
    match r with
    | inl err => send (errResponse ("unable to perform uid fetch: " +:+ err)) w
    | inr fdata => (processRecords markAsRead delete fdata w).1
    end.

(** The goroutine of [generateMail], with its deferred close. *)
Definition worker (search : string) (since : option Time)
    (markAsRead delete : bool) (w : world) : world :=
  close
    match findEmails search since w with
    | (w', inr err) => send (errResponse err) w'
    | (w', inl data) => getEmails data markAsRead delete w'
    end.

(** [generateMail] makes the channel, starts the worker and hands back
    the channel and [nil]; the channel is the history the worker leaves
    on the connection in state [c]. *)
Definition generateMail (search : string) (since : option Time)
    (markAsRead delete : bool) (c : Conn) : world * option error :=
  let responses := mkWorld c [] in
  (worker search since markAsRead delete responses, None).

Definition GenerateAll (markAsRead delete : bool) :=
  generateMail "ALL" None markAsRead delete.

Definition GenerateUnread (markAsRead delete : bool) :=
  generateMail "UNSEEN" None markAsRead delete.

Definition GenerateSince (since : Time) (markAsRead delete : bool) :=
  generateMail "" (Some since) markAsRead delete.

(** The [for resp := range responses] loop of [GetAll], [GetUnread] and
    [GetSince]. *)
Fixpoint drain (emails : list (Email Msg)) (responses : list (Response Msg))
    : list (Email Msg) * option error :=
  match responses with
  | [] => (emails, None)
  | resp :: rest =>
    match Err resp with
    | Some e => (emails, Some e)
    | None => drain (emails ++ [REmail resp]) rest
    end
  end.

Definition GetAll (markAsRead delete : bool) (c : Conn)
    : list (Email Msg) * option error :=
  match GenerateAll markAsRead delete c with
  | (_, Some err) => ([], Some err)
  | (w', None) => drain [] (stream (events w'))
  end.

End Pipeline.

(** ** The visible text of an HTML body *)

(** The tokens [html.Tokenizer.Next] produces before its [ErrorToken], each
    with what [z.Text()] or [z.TagName()] gives for it. *)
Inductive Token :=
| TextToken (text : string)
| StartTagToken (tn : string)
| EndTagToken (tn : string)
| SelfClosingTagToken (tn : string)
| CommentToken (text : string)
| DoctypeToken (text : string).

(** What [z.Err()] holds once [Next] has returned [ErrorToken]: [io.EOF] or
    the error of the reader. *)
Inductive ReadErr :=
| EOF
| Failed (err : error).

(** A tokenizer: the tokens still to come and the error that ends them. *)
Record Tokenizer := mkTokenizer {
  pending : list Token;
  zerr : ReadErr
}.

Definition styleTag : string := "style".
Definition scriptTag : string := "script".
Definition headTag : string := "head".
Definition metaTag : string := "meta".
Definition doctypeTag : string := "doctype".
Definition shapeTag : string := "v:shape".
Definition imageDataTag : string := "v:imagedata".
Definition commentTag : string := "!".

Definition nonVisibleTags : list string :=
  [styleTag; scriptTag; headTag; metaTag; doctypeTag; shapeTag;
   imageDataTag; commentTag].

(** The white space of [unicode.IsSpace], each rune in its UTF-8 encoding. *)
Definition spaceRunes : list string :=
  map bytes
    ([[9]; [10]; [11]; [12]; [13]; [32]; [194; 133]; [194; 160];
      [225; 154; 128]] ++
     map (λ c, [226; 128; c]) [128; 129; 130; 131; 132; 133; 134; 135; 136; 137; 138] ++
     [[226; 128; 168]; [226; 128; 169]; [226; 128; 175]; [226; 129; 159];
      [227; 128; 128]]).

Fixpoint stripPrefix (p s : string) : option string :=
  match p, s with
  | EmptyString, _ => Some s
  | String a p', String b s' => if Ascii.eqb a b then stripPrefix p' s' else None
  | String _ _, EmptyString => None
  end.

(** [s] without the space rune it starts with, if it starts with one. *)
Fixpoint stripRune (runes : list string) (s : string) : option string :=
  match runes with
  | [] => None
  | r :: runes' =>
    match stripPrefix r s with
    | Some s' => Some s'
    | None => stripRune runes' s
    end
  end.

Fixpoint trimLeft (fuel : nat) (runes : list string) (s : string) : string :=
  match fuel with
  | O => s
  | S fuel' =>
    match stripRune runes s with
    | Some s' => trimLeft fuel' runes s'
    | None => s
    end
  end.

(** [bytes.TrimSpace]: the leading and the trailing white space runes are
    cut off. *)
Definition TrimSpace (s : string) : string :=
  let l := trimLeft (String.length s) spaceRunes s in
  String.rev (trimLeft (String.length l) (map String.rev spaceRunes) (String.rev l)).

(** The [for _, nvTag := range nonVisibleTags] loop with its [break]. *)
Fixpoint visibility (tags : list string) (tn : string) (isStart skip : bool) : bool :=
  match tags with
  | [] => skip
  | nvTag :: tags' =>
    if String.eqb tn nvTag then isStart else visibility tags' tn isStart skip
  end.

(** The [for] loop of [VisibleText]; the tokenizer returns [ErrorToken] when
    no token is left. *)
Fixpoint visibleTextLoop (toks : list Token) (e : ReadErr)
    (text : list string) (skip : bool) : list string * option error :=
  match toks with
  | [] =>
    match e with
    | EOF => (text, None)
    | Failed err => (text, Some err)
    end
  | TextToken t :: toks' =>
    if negb skip then
      let tmp := TrimSpace t in
      if (String.length tmp =? 0)%nat then visibleTextLoop toks' e text skip
      else visibleTextLoop toks' e (text ++ [tmp]) skip
    else visibleTextLoop toks' e text skip
  | StartTagToken tn :: toks' =>
    visibleTextLoop toks' e text (visibility nonVisibleTags tn true skip)
  | EndTagToken tn :: toks' =>
    visibleTextLoop toks' e text (visibility nonVisibleTags tn false skip)
  | _ :: toks' => visibleTextLoop toks' e text skip
  end.

Definition VisibleTextOf (z : Tokenizer) : list string * option error :=
  visibleTextLoop (pending z) (zerr z) [] false.

(** ** From the reader to the token stream

    [html.NewTokenizer(body)] on a reader that delivers [content] and then
    [io.EOF] or its own error.  [tokenize] follows [Tokenizer.Next] in how it
    separates text, start tags, end tags, comments and declarations, and in
    what it does when the input stops inside one of them; character
    references in text and the raw text of script and style elements are
    not decoded. *)

Record Reader := mkReader {
  content : string;
  failure : option error
}.

Definition between (lo hi : N) (c : ascii) : bool :=
  (lo <=? N_of_ascii c) && (N_of_ascii c <=? hi).

Definition isLetter (c : ascii) : bool := between 97 122 c || between 65 90 c.

Definition lower (c : ascii) : ascii :=
  if between 65 90 c then ascii_of_N (N_of_ascii c + 32) else c.

Fixpoint toLower (s : string) : string :=
  match s with
  | EmptyString => ""
  | String c rest => String (lower c) (toLower rest)
  end.

Definition isTagSpace (c : ascii) : bool :=
  bool_decide (N_of_ascii c ∈ [32; 10; 13; 9; 12]).

(** The text up to the next "<" that opens a tag, a comment or a
    declaration, and the input from that "<" on. *)
Fixpoint scanText (s : string) : string * string :=
  match s with
  | EmptyString => ("", "")
  | String c rest =>
    let opens :=
      match rest with
      | String d _ => Ascii.eqb c "<" && (isLetter d || bool_decide (d ∈ ["/"; "!"; "?"]%char))
      | EmptyString => false
      end in
    if opens then ("", s)
    else let '(t, r) := scanText rest in (String c t, r)
  end.

(** [readTagName]: the lower-cased name and the input from its delimiter on;
    nothing when the input ends first. *)
Fixpoint readTagName (s : string) : option (string * string) :=
  match s with
  | EmptyString => None
  | String c rest =>
    if isTagSpace c || bool_decide (c ∈ ["/"; ">"]%char) then Some ("", s)
    else '(n, r) ← readTagName rest; Some (String (lower c) n, r)
  end.

(** The attributes up to the closing ">": whether a "/" stands right before
    it, and the input after it. *)
Fixpoint skipAttrs (s : string) (prev : ascii) (afterEq : bool)
    (quote : option ascii) : option (bool * string) :=
  match s with
  | EmptyString => None
  | String c rest =>
    match quote with
    | Some q => skipAttrs rest c false (if Ascii.eqb c q then None else quote)
    | None =>
      if Ascii.eqb c ">" then Some (Ascii.eqb prev "/", rest)
      else if afterEq && bool_decide (N_of_ascii c ∈ [34; 39]) then
        skipAttrs rest c false (Some c)
      else skipAttrs rest c (Ascii.eqb c "=" || afterEq && isTagSpace c) None
    end
  end.

(** [readUntilCloseAngle]: the bytes before the next ">" and the input after
    it; all of the input when there is none. *)
Fixpoint readUntilCloseAngle (s : string) : string * string :=
  match s with
  | EmptyString => ("", "")
  | String c rest =>
    if Ascii.eqb c ">" then ("", rest)
    else let '(d, r) := readUntilCloseAngle rest in (String c d, r)
  end.

(** [readComment]: the bytes before the closing "-->". *)
Fixpoint readComment (s : string) : string * string :=
  match s with
  | String "-" (String "-" (String ">" rest)) => ("", rest)
  | String c rest => let '(d, r) := readComment rest in (String c d, r)
  | EmptyString => ("", "")
  end.

Definition readMarkupDeclaration (s : string) : Token * string :=
  match s with
  | String "-" (String "-" rest) =>
    let '(d, r) := readComment rest in (CommentToken d, r)
  | _ =>
    if String.eqb (toLower (substring 0 7 s)) "doctype" then
      let '(d, r) := readUntilCloseAngle (substring 7 (String.length s) s) in
      (DoctypeToken d, r)
    else let '(d, r) := readUntilCloseAngle s in (CommentToken d, r)
  end.

Fixpoint tokenize (fuel : nat) (s : string) : list Token :=
  match fuel with
  | O => []
  | S fuel' =>
    match scanText s with
    | (String c t, rest) => TextToken (String c t) :: tokenize fuel' rest
    | (EmptyString, String _ (String c rest)) =>
      if isLetter c then
        match readTagName (String c rest) ≫= λ '(tn, r), pair tn <$> skipAttrs r c false None with
        | None => []
        | Some (tn, (true, r)) => SelfClosingTagToken tn :: tokenize fuel' r
        | Some (tn, (false, r)) => StartTagToken tn :: tokenize fuel' r
        end
      else if Ascii.eqb c "/" then
        match rest with
        | EmptyString => [TextToken "</"]
        | String d rest' =>
          if Ascii.eqb d ">" then CommentToken "" :: tokenize fuel' rest'
          else if isLetter d then
            match readTagName rest ≫= λ '(tn, r), pair tn <$> skipAttrs r d false None with
            | None => []
            | Some (tn, (_, r)) => EndTagToken tn :: tokenize fuel' r
            end
          else
            let '(d, r) := readUntilCloseAngle rest in
            CommentToken d :: tokenize fuel' r
        end
      else if Ascii.eqb c "!" then
        let '(tok, r) := readMarkupDeclaration rest in tok :: tokenize fuel' r
      else
        let '(d, r) := readUntilCloseAngle (String c rest) in
        CommentToken d :: tokenize fuel' r
    | (EmptyString, _) => []
    end
  end.

Definition NewTokenizer (body : Reader) : Tokenizer :=
  mkTokenizer (tokenize (S (String.length (content body))) (content body))
              (match failure body with None => EOF | Some err => Failed err end).

(** [VisibleText] *)
Definition VisibleText (body : Reader) : list string * option error :=
  VisibleTextOf (NewTokenizer body).

(** ** A mail reader

    A reader in the manner of [mail.ReadMessage]: header lines of the form
    [key:value] up to the first empty line, the rest is the body; a header
    line without a colon is an error. *)

Record MailMessage := mkMailMessage {
  Header : list (string * string);
  Body : string
}.

Definition LF : ascii := ascii_of_N 10.

(** The first line of [s] and what follows its line feed. *)
Fixpoint readLine (s : string) : string * string :=
  match s with
  | EmptyString => ("", "")
  | String c rest =>
    if Ascii.eqb c LF then ("", rest)
    else let '(l, r) := readLine rest in (String c l, r)
  end.

(** [key:value] cut at its first colon. *)
Fixpoint splitColon (l : string) : option (string * string) :=
  match l with
  | EmptyString => None
  | String c rest =>
    if Ascii.eqb c ":" then Some ("", rest)
    else '(k, v) ← splitColon rest; Some (String c k, v)
  end.

Fixpoint readMIMEHeader (fuel : nat) (s : string)
    : list (string * string) * string + error :=
  match fuel with
  | O => inl ([], s)
  | S fuel' =>
    let '(l, r) := readLine s in
    if (String.length l =? 0)%nat then inl ([], r)
    else
      match splitColon l with
      | None => inr ("malformed MIME header line: " +:+ l)
      | Some kv =>
        match readMIMEHeader fuel' r with
        | inl (h, b) => inl (kv :: h, b)
        | inr e => inr e
        end
      end
  end.

#[export] Instance lineReader : MailReader MailMessage := λ s,
  match readMIMEHeader (String.length s) s with
  | inl (h, b) => inl (mkMailMessage h b)
  | inr e => inr e
  end.

(** ** A scripted session

    A connection that answers every search and every fetch with a fixed
    result and refuses the stores that touch one of the numbers in
    [refused]. *)

Record Script := mkScript {
  searchData : error + list (list N);
  fetchData : error + list FieldMap;
  refused : gset N
}.

#[export] Instance scripted : Session Script := {|
  UIDSearch _ s := (s, searchData s);
  UIDFetch _ _ s := (s, fetchData s);
  UIDStore seq _ _ s :=
    (s, if bool_decide (seq ∩ refused s = ∅) then None else Some "NO")
|}.

(** A fetched record with all four items. *)
Definition record (uid : N) (header body : string) : FieldMap :=
  <["INTERNALDATE" := FBytes "01-Jan-2024 00:00:00 +0000"]>
  (<["BODY[]" := FBytes body]>
  (<["UID" := FNumber uid]>
  (<["RFC822.HEADER" := FBytes header]> ∅))).

(** An unsolicited record that carries flags only. *)
Definition flagsOnly (uid : N) : FieldMap :=
  <["FLAGS" := FBytes "\Seen"]> (<["UID" := FNumber uid]> ∅).

(** ** A mailbox *)

(** Modelled from the spec: the Session collaborator of its sections 4.4 and
    6, the mail store behind the IMAP connection, which the package only
    calls.  A message has a unique number and flags, named boolean
    attributes that a store adds or removes; a search selects numbers by
    [ALL], [UNSEEN] or [SINCE date]; a fetch returns the four requested items
    of each addressed message and, unless the mailbox was selected
    read-only, marks it seen; a read-only mailbox refuses every store.  The
    number 0 in a set stands for the highest number of the mailbox. *)
Record Letter := mkLetter {
  lHeader : string;
  lBody : string;
  lDate : Time;
  lFlags : gset string
}.

Record Mailbox := mkMailbox {
  letters : gmap N Letter;
  readOnly : bool
}.

Definition withFlags (f : gset string → gset string) (l : Letter) : Letter :=
  mkLetter (lHeader l) (lBody l) (lDate l) (f (lFlags l)).

Definition highest (mb : Mailbox) : N :=
  foldr N.max 0 (elements (dom (letters mb))).

Definition addressed (seq : SeqSet) (mb : Mailbox) (uid : N) : bool :=
  bool_decide (uid ∈ seq) || bool_decide (0 ∈ seq) && (uid =? highest mb).

Definition mapAddressed (seq : SeqSet) (f : Letter → Letter) (mb : Mailbox)
    : Mailbox :=
  mkMailbox
    (map_imap (λ uid l, Some (if addressed seq mb uid then f l else l)) (letters mb))
    (readOnly mb).

(** The day a date falls on, as a number that grows with the date. *)
Definition dayKey (y m d : Z) : Z := ((y * 100 + m) * 100 + d)%Z.

Definition digitsValue (s : string) : Z :=
  foldl (λ acc c, acc * 10 + (Z.of_N (N_of_ascii c) - 48))%Z 0%Z (list_ascii_of_string s).

Definition allMonths : list Month :=
  [January; February; March; April; May; June; July; August; September;
   October; November; December].

(** The day key of a date written [DD-Mon-YYYY]. *)
Definition parseDate (s : string) : option Z :=
  m ← head (filter (λ m, substring 0 3 (longMonthNames m) = substring 3 3 s) allMonths);
  Some (dayKey (digitsValue (substring 7 (String.length s - 7) s))
               (monthNumber m) (digitsValue (substring 0 2 s))).

Definition seen : string := "\SEEN".

(** The search keys as a test on a message. *)
Fixpoint matches (specs : list string) (l : Letter) : option bool :=
  match specs with
  | [] => Some true
  | key :: specs' =>
    if String.eqb key "ALL" then matches specs' l
    else if String.eqb key "UNSEEN" then
      andb (bool_decide (seen ∉ lFlags l)) <$> matches specs' l
    else if String.eqb key "SINCE" then
      match specs' with
      | date :: specs'' =>
        since ← parseDate date;
        andb (since <=? dayKey (Year (lDate l)) (monthNumber (Mon (lDate l))) (Day (lDate l)))%Z
          <$> matches specs'' l
      | [] => None
      end
    else None
  end.

Definition numbers (mb : Mailbox) : list N :=
  merge_sort N.le (elements (dom (letters mb))).

Definition mailboxSearch (specs : list string) (mb : Mailbox)
    : Mailbox * (error + list (list N)) :=
  match mapM (λ uid, l ← letters mb !! uid; hit ← matches specs l; Some (uid, hit)) (numbers mb) with
  | None => (mb, inl "BAD search key")
  | Some hits => (mb, inr [(fst <$> filter (λ uh, uh.2 = true) hits)])
  end.

Definition fetched (uid : N) (l : Letter) : FieldMap :=
  <["INTERNALDATE" := FBytes (Format "02-Jan-2006 00:00:00 +0000" (lDate l))]>
  (<["BODY[]" := FBytes (lBody l)]>
  (<["UID" := FNumber uid]>
  (<["RFC822.HEADER" := FBytes (lHeader l)]> ∅))).

Definition mailboxFetch (seq : SeqSet) (items : list string) (mb : Mailbox)
    : Mailbox * (error + list FieldMap) :=
  (if readOnly mb then mb else mapAddressed seq (withFlags (λ fl, fl ∪ {[seen]})) mb,
   inr (omap (λ uid, if addressed seq mb uid then fetched uid <$> letters mb !! uid else None)
             (numbers mb))).

(** Modelled from the spec: the store of the Session collaborator, which
    adds the named flag to the addressed messages or removes it from them
    and answers with an error or with nil; the mail store itself is not
    part of the package. *)
Definition mailboxStore (seq : SeqSet) (item flag : string) (mb : Mailbox)
    : Mailbox * option error :=
  if readOnly mb then (mb, Some "NO mailbox is read-only")
  else if String.eqb item "+FLAGS" then
    (mapAddressed seq (withFlags (λ fl, fl ∪ {[flag]})) mb, None)
  else if String.eqb item "-FLAGS" then
    (mapAddressed seq (withFlags (λ fl, fl ∖ {[flag]})) mb, None)
  else (mb, Some "BAD store item").

#[export] Instance mailbox : Session Mailbox := {|
  UIDSearch := mailboxSearch;
  UIDFetch := mailboxFetch;
  UIDStore := mailboxStore
|}.

(** ** Reading a history *)

Section Observations.
Context {Conn Msg : Type} `{!Session Conn, !MailReader Msg}.
Implicit Types (w : World Conn Msg) (evs : list (Event Msg)) (c : Conn).

(** [w] with [evs] put in front of its history. *)
Definition after evs w : World Conn Msg := mkWorld (sess w) (evs ++ events w).

(** The email of a record that has the header item and can be parsed. *)
Definition parse (r : FieldMap) : option (Email Msg) :=
  match r !! "RFC822.HEADER" with
  | None => None
  | Some _ => match newEmail r with inl e => Some e | inr _ => None end
  end.

(** The loop over the fetched records, run on a fresh history. *)
Definition history markAsRead delete data c :=
  processRecords markAsRead delete data (mkWorld c []).

(** A response without an error, a store that was refused. *)
Definition noErr (r : Response Msg) : Prop := Err r = None.

Definition storeFailed (ev : Event Msg) : bool :=
  match ev with
  | EvCmd (CStore _ _ _) (Some _) => true
  | _ => false
  end.

(** One error, sent last. *)
Definition endsInError evs : Prop :=
  ∃ evs0 err, evs = evs0 ++ [EvSend (errResponse err)] ∧ Forall noErr (stream evs0).

(** A record with the header item that parses. *)
Definition wellFormed (r : FieldMap) : Prop := is_Some (parse r).

Definition isStore (cmd : Command) : Prop :=
  match cmd with CStore _ _ _ => True | _ => False end.

(** The store that takes the seen flag off [email]. *)
Definition unreadStore (email : Email Msg) : Command :=
  CStore (AddNum ∅ (AsNumber (ID email))) "-FLAGS" "\SEEN".

Definition isUnreadOf (email : Email Msg) (ev : Event Msg) : bool :=
  match ev with
  | EvCmd cmd _ => bool_decide (cmd = unreadStore email)
  | _ => false
  end.

(** Every email sent is followed at once by the store that takes the seen
    flag off it. *)
Fixpoint unreadFollows evs : bool :=
  match evs with
  | [] => true
  | EvSend r :: rest =>
    match Err r with
    | Some _ => true
    | None =>
      match rest with
      | ev :: _ => isUnreadOf (REmail r) ev
      | [] => false
      end
    end && unreadFollows rest
  | _ :: rest => unreadFollows rest
  end.

Definition isUnreadStore (cmd : Command) : bool :=
  match cmd with
  | CStore _ item flag => String.eqb item "-FLAGS" && String.eqb flag "\SEEN"
  | _ => false
  end.

Definition isEmail (r : Response Msg) : bool :=
  match Err r with None => true | Some _ => false end.

Definition count {A} (p : A → bool) (l : list A) : nat := length (List.filter p l).

(** The message the code wraps around the error of a command. *)
Definition errPrefix (cmd : Command) : string :=
  match cmd with
  | CSearch _ => "uid search failed: "
  | CFetch _ _ => "unable to perform uid fetch: "
  | CStore _ item _ =>
    if String.eqb item "-FLAGS" then "unable to remove seen flag: "
    else "unable to delete email: "
  end.

(** The history ends with the failed command [cmd] and the response that
    carries its error. *)
Definition failsLast (cmd : Command) (e : error) evs : Prop :=
  ∃ evs0, evs = evs0 ++ [EvCmd cmd (Some e); EvSend (errResponse (errPrefix cmd +:+ e))].


(** The responses are the emails of the records, one for one and in the
    order of the records. *)
Definition emitsAll (fdata : list FieldMap) evs : Prop :=
  Forall2 (λ r resp, ∃ email, parse r = Some email ∧ resp = emailResponse email)
          fdata (stream evs).

(** The messages of the errors the pipeline sends. *)
Definition errorKinds : list string :=
  ["uid search failed: "; "unable to perform uid fetch: ";
   "unable to parse email: "; "unable to remove seen flag: ";
   "unable to delete email: "].

Definition knownError (r : Response Msg) : Prop :=
  ∀ e, Err r = Some e → ∃ kind cause, kind ∈ errorKinds ∧ e = kind +:+ cause.

End Observations.

(** ** The extraction as designed *)

(** The names of the non-visible set. *)
Definition nonVisible : gset string :=
  {[ "style"; "script"; "head"; "meta"; "doctype"; "v:shape"; "v:imagedata"; "!" ]}.

(** The state of the extraction: the flag and the fragments so far. *)
Record Extractor := mkExtractor {
  suppressed : bool;
  fragments : list string
}.

(** The extraction as the design describes it: one flag, set by the start
    tag of a non-visible element and cleared by the end tag of one; a text
    met while the flag is clear is trimmed and, unless empty, added as the
    next fragment. *)
Definition flatFlagStep (st : Extractor) (tok : Token) : Extractor :=
  match tok with
  | StartTagToken tn =>
    if bool_decide (tn ∈ nonVisible) then mkExtractor true (fragments st) else st
  | EndTagToken tn =>
    if bool_decide (tn ∈ nonVisible) then mkExtractor false (fragments st) else st
  | TextToken t =>
    if suppressed st then st
    else if bool_decide (TrimSpace t = "") then st
    else mkExtractor false (fragments st ++ [TrimSpace t])
  | _ => st
  end.

Definition flatFlag (toks : list Token) : list string :=
  fragments (foldl flatFlagStep (mkExtractor false []) toks).

(** A run of white space: runes of the list, one after the other. *)
Inductive runOf (runes : list string) : string → Prop :=
| runOf_nil : runOf runes ""
| runOf_cons r s : r ∈ runes → runOf runes s → runOf runes (r +:+ s).

(** The page of the example. *)
Definition page : string :=
  "<html><head><style>.a{}</style></head><body>Hi <b>there</b></body></html>".

(** ** Sessions to run the pipeline on *)

(** Three fetched records and the emails of the first two. *)
Definition letterA : FieldMap := record 1 "Subject: a" "x".
Definition letterB : FieldMap := record 2 "Subject: b" "y".
Definition letterC : FieldMap := record 3 "Subject: c" "z".

Definition emailA : Email MailMessage :=
  mkEmail (FNumber 1) (Some (mkMailMessage [("Subject", " a")] "x")).
Definition emailB : Email MailMessage :=
  mkEmail (FNumber 2) (Some (mkMailMessage [("Subject", " b")] "y")).

(** Two messages found and fetched, every store accepted. *)
Definition twoLetters : Script :=
  mkScript (inr [[1; 2]]) (inr [letterA; letterB]) ∅.

(** The same, in a session that refuses the stores on message 1. *)
Definition refusingFirst : Script :=
  mkScript (inr [[1; 2]]) (inr [letterA; letterB]) {[ 1 ]}.

(** A flags-only record between the two messages. *)
Definition withPartial (refused : gset N) : Script :=
  mkScript (inr [[1; 2]]) (inr [letterA; flagsOnly 9; letterB]) refused.

(** Three messages, the stores on message 2 refused. *)
Definition refusingSecond : Script :=
  mkScript (inr [[1; 2]; [3]]) (inr [letterA; letterB; letterC]) {[ 2 ]}.

(** A session whose search fails. *)
Definition lostConnection : Script :=
  mkScript (inl "connection lost") (inr []) ∅.

(** A mailbox of two messages, the first one read. *)
Definition inbox : Mailbox :=
  mkMailbox
    (<[ 4 := mkLetter "Subject: a" "x" (mkTime 2024 March 5) {[ seen ]} ]>
     (<[ 7 := mkLetter "Subject: b" "y" (mkTime 2024 April 1) ∅ ]> ∅))
    false.

(** ** The other entry points *)

Section Getters.
Context {Conn Msg : Type} `{!Session Conn, !MailReader Msg}.

(** [GetUnread] and [GetSince] read their channel as [GetAll] does. *)
Definition GetUnread (markAsRead delete : bool) (c : Conn)
    : list (Email Msg) * option error :=
  match GenerateUnread markAsRead delete c with
  | (_, Some err) => ([], Some err)
  | (w', None) => drain [] (stream (events w'))
  end.

Definition GetSince (since : Time) (markAsRead delete : bool) (c : Conn)
    : list (Email Msg) * option error :=
  match GenerateSince since markAsRead delete c with
  | (_, Some err) => ([], Some err)
  | (w', None) => drain [] (stream (events w'))
  end.

(** The emails among the responses sent, and the error of the last one. *)
Definition sentEmails (evs : list (Event Msg)) : list (Email Msg) :=
  omap (λ r, match Err r with None => Some (REmail r) | Some _ => None end)
       (stream evs).

Definition lastError (evs : list (Event Msg)) : option error :=
  last (stream evs) ≫= Err.

(** The store that puts the deleted flag on [email], and the stores the
    loop issues for an email when none of them fails. *)
Definition deleteStore (email : Email Msg) : Command :=
  CStore (AddNum ∅ (AsNumber (ID email))) "+FLAGS" "\DELETED".


Definition isFetch (cmd : Command) : bool :=
  match cmd with CFetch _ _ => true | _ => false end.

Definition isStoreCmd (cmd : Command) : bool :=
  match cmd with CStore _ _ _ => true | _ => false end.

(** Every store of the history is on the number of the email sent last
    before it, and takes off the seen flag or puts on the deleted flag. *)
Fixpoint storesTargetLast (sent : option (Email Msg)) (evs : list (Event Msg)) : bool :=
  match evs with
  | [] => true
  | EvSend r :: rest =>
    storesTargetLast (match Err r with None => Some (REmail r) | Some _ => sent end) rest
  | EvCmd (CStore seq item flag) _ :: rest =>
    match sent with
    | Some email =>
      bool_decide (CStore seq item flag = unreadStore email ∨
                   CStore seq item flag = deleteStore email)
    | None => false
    end && storesTargetLast sent rest
  | _ :: rest => storesTargetLast sent rest
  end.

(** A command that was answered with an error. *)
Definition failed (ev : Event Msg) : bool :=
  match ev with EvCmd _ (Some _) => true | _ => false end.

(** The history is commands that were accepted and responses, then the
    failed command [cmd] and the response that carries its error. *)
Definition failsOnce (cmd : Command) (e : error) (evs : list (Event Msg)) : Prop :=
  ∃ evs0,
    evs = evs0 ++ [EvCmd cmd (Some e); EvSend (errResponse (errPrefix cmd +:+ e))] ∧
    Forall (λ ev, failed ev = false) evs0.

(** The items of a record that [newEmail] reads. *)
Definition itemsRead : list string := ["RFC822.HEADER"; "BODY[]"; "UID"].

End Getters.

(** ** Connecting *)

(** [imap.Dial], [imap.DialTLS], [Client.Login] and the [imap.Wait] of
    [Client.Select], as the network answers when [New] is called. *)
Class Dialer (Conn : Type) := {
  Dial : string → error + Conn;
  DialTLS : string → error + Conn;
  Login : string → string → Conn → Conn * option error;
  Select : string → bool → Conn → Conn * option error
}.

Record Client (Conn : Type) := mkClient {
  TLS : bool;
  Folder : string;
  ReadOnly : bool;
  Imap : option Conn
}.
Arguments mkClient {Conn} _ _ _ _.
Arguments TLS {Conn} _.
Arguments Folder {Conn} _.
Arguments ReadOnly {Conn} _.
Arguments Imap {Conn} _.

Section Connecting.
Context {Conn : Type} `{!Dialer Conn}.

(** An option changes the client it is given. *)
Definition SetFolder (folder : string) (c : Client Conn) : Client Conn :=
  mkClient (TLS c) folder (ReadOnly c) (Imap c).

Definition SetReadOnly (readOnly : bool) (c : Client Conn) : Client Conn :=
  mkClient (TLS c) (Folder c) readOnly (Imap c).

Definition SetTLS (tls : bool) (c : Client Conn) : Client Conn :=
  mkClient tls (Folder c) (ReadOnly c) (Imap c).

(** The client of [New] once its options are applied, in their order. *)
Definition configure (options : list (Client Conn → Client Conn)) : Client Conn :=
  foldl (λ client option, option client) (mkClient false "" false None) options.

(** [New]: dial, log in, select the folder; the first error ends it. *)
Definition New (host user pwd : string) (options : list (Client Conn → Client Conn))
    : Client Conn * option error :=
  let client := configure options in
  match (if TLS client then DialTLS host else Dial host) with
  | inl err => (client, Some err)
  | inr imapClient =>
    match Login user pwd imapClient with
    | (_, Some err) => (client, Some err)
    | (imapClient, None) =>
      match Select (Folder client) (ReadOnly client) imapClient with
      | (_, Some err) => (client, Some err)
      | (imapClient, None) =>
        (mkClient (TLS client) (Folder client) (ReadOnly client) (Some imapClient), None)
      end
    end
  end.

(** The options the package offers, by name. *)
Inductive Setting :=
| Folder_ (folder : string)
| ReadOnly_ (readOnly : bool)
| TLS_ (tls : bool).

Definition option_of (s : Setting) : Client Conn → Client Conn :=
  match s with
  | Folder_ folder => SetFolder folder
  | ReadOnly_ readOnly => SetReadOnly readOnly
  | TLS_ tls => SetTLS tls
  end.

(** The last folder, read-only flag and TLS flag among the settings. *)
Definition lastFolder (ss : list Setting) : string :=
  default "" (last (omap (λ s, match s with Folder_ f => Some f | _ => None end) ss)).

Definition lastReadOnly (ss : list Setting) : bool :=
  default false (last (omap (λ s, match s with ReadOnly_ b => Some b | _ => None end) ss)).

Definition lastTLS (ss : list Setting) : bool :=
  default false (last (omap (λ s, match s with TLS_ b => Some b | _ => None end) ss)).

End Connecting.

(** The tokens [VisibleText] looks at: texts, and start and end tags of
    the non-visible names. *)
Definition relevant (tok : Token) : bool :=
  match tok with
  | TextToken _ => true
  | StartTagToken tn | EndTagToken tn => bool_decide (tn ∈ nonVisible)
  | _ => false
  end.

Definition isVisibleEnd (tok : Token) : bool :=
  match tok with
  | EndTagToken tn => bool_decide (tn ∈ nonVisible)
  | _ => false
  end.

Definition isText (tok : Token) : bool :=
  match tok with TextToken _ => true | _ => false end.

(** A network on which every host answers, plainly or over TLS, with a
    connection named after the way it was reached; logging in and
    selecting extend the name, the user [nobody] is turned away and so is
    the folder [Missing]. *)
#[export] Instance openNetwork : Dialer string := {|
  Dial host := inr ("plain " +:+ host);
  DialTLS host := inr ("tls " +:+ host);
  Login user pwd conn :=
    if String.eqb user "nobody" then (conn, Some "NO login") else (conn +:+ " as " +:+ user, None);
  Select folder readOnly conn :=
    if String.eqb folder "Missing" then (conn, Some "NO select")
    else (conn +:+ " in [" +:+ folder +:+ (if readOnly then "] read-only" else "]"), None)
|}.

(** A record whose header is no header, between two messages. *)
Definition badHeader : FieldMap := record 2 "no colon here" "y".

Definition badSecond : Script :=
  mkScript (inr [[1; 2; 3]]) (inr [letterA; badHeader; letterC]) ∅.

(** A session whose fetch fails. *)
Definition failingFetch : Script :=
  mkScript (inr [[1]; [1; 2]]) (inl "fetch refused") ∅.

(** A record with a header and a body and no UID item. *)
Definition noUid : FieldMap :=
  <["BODY[]" := FBytes "x"]> (<["RFC822.HEADER" := FBytes "Subject: a"]> ∅).

Definition emailNoUid : Email MailMessage :=
  mkEmail FNil (Some (mkMailMessage [("Subject", " a")] "x")).

(** Settings in the order a caller might give them. *)
Definition someSettings : list Setting :=
  [Folder_ "INBOX"; TLS_ true; Folder_ "Archive"; ReadOnly_ true].

(** * Properties *)

(** ** The history does not depend on what was sent before *)

Section Frame.
Context {Conn Msg : Type} `{!Session Conn, !MailReader Msg}.

Implicit Types (w : World Conn Msg) (evs : list (Event Msg)) (c : Conn).

Lemma after_nil w : after [] w = w.
Proof. by destruct w. Qed.

Lemma emit_after evs e w : emit e (after evs w) = after evs (emit e w).
Proof. unfold emit, after; simpl. by rewrite (assoc_L (++)). Qed.

Lemma send_after evs r w : send r (after evs w) = after evs (send r w).
Proof. apply emit_after. Qed.

Lemma issue_after evs cmd err c w :
  issue cmd err c (after evs w) = after evs (issue cmd err c w).
Proof. unfold issue, after; simpl. by rewrite (assoc_L (++)). Qed.

Lemma alterEmail_after evs email flag plus w :
  alterEmail email flag plus (after evs w) =
  ((after evs (alterEmail email flag plus w).1), (alterEmail email flag plus w).2).
Proof.
  unfold alterEmail; simpl.
  destruct (UIDStore _ _ _ (sess w)) as [s' [e|]]; simpl;
    by rewrite issue_after.
Qed.

Lemma processRecord_after evs markAsRead delete msgFields w :
  processRecord markAsRead delete msgFields (after evs w) =
  (after evs (processRecord markAsRead delete msgFields w).1,
   (processRecord markAsRead delete msgFields w).2).
Proof.
  unfold processRecord, SetAsUnread, DeleteEmail.
  destruct (msgFields !! "RFC822.HEADER"); [|done].
  destruct (newEmail msgFields) as [email|err]; simpl;
    [|by rewrite send_after].
  rewrite send_after.
  destruct markAsRead.
  - destruct delete; [|done].
    rewrite alterEmail_after.
    destruct (alterEmail email _ true _) as [w1 [e|]]; simpl; [|done].
    by rewrite send_after.
  - rewrite alterEmail_after.
    destruct (alterEmail email _ false _) as [w1 [e|]]; simpl.
    { by rewrite send_after. }
    destruct delete; [|done].
    rewrite alterEmail_after.
    destruct (alterEmail email _ true _) as [w2 [e|]]; simpl; [|done].
    by rewrite send_after.
Qed.

Lemma after_after evs1 evs2 w : after evs1 (after evs2 w) = after (evs1 ++ evs2) w.
Proof. unfold after; simpl. by rewrite (assoc_L (++)). Qed.

End Frame.

Section Loop.
Context {Conn Msg : Type} `{!Session Conn, !MailReader Msg}.
Implicit Types (w : World Conn Msg) (evs : list (Event Msg)) (c : Conn).

Lemma processRecords_after evs m d data w :
  processRecords m d data (after evs w) =
  (after evs (processRecords m d data w).1, (processRecords m d data w).2).
Proof.
  revert w. induction data as [|r data IH]; intros w; simpl; [done|].
  rewrite processRecord_after.
  destruct (processRecord m d r w) as [w1 []]; simpl; [apply IH|done].
Qed.

Lemma processRecords_app m d pre post w :
  processRecords m d (pre ++ post) w =
  match processRecords m d pre w with
  | (w1, Next) => processRecords m d post w1
  | (w1, Return) => (w1, Return)
  end.
Proof.
  revert w. induction pre as [|r pre IH]; intros w; simpl; [done|].
  destruct (processRecord m d r w) as [w1 []]; [apply IH|done].
Qed.

Ltac record_cases m d r :=
  unfold processRecord, SetAsUnread, DeleteEmail, alterEmail, parse; simpl;
  destruct (r !! "RFC822.HEADER") eqn:?; simpl;
  [destruct (newEmail r) as [?email|?perr] eqn:?; simpl;
   [destruct m, d; simpl;
    repeat match goal with
           | |- context [UIDStore ?a ?b ?f ?s] =>
               destruct (UIDStore a b f s) as [? [?|]] eqn:?; simpl
           end|]|].

Lemma history_cons m d r data c :
  history m d (r :: data) c =
  match processRecord m d r (mkWorld c []) with
  | (w1, Next) =>
      (after (events w1) (history m d data (sess w1)).1,
       (history m d data (sess w1)).2)
  | (w1, Return) => (w1, Return)
  end.
Proof.
  unfold history; simpl.
  destruct (processRecord m d r _) as [w1 []]; [|done].
  rewrite <- processRecords_after. f_equal.
  destruct w1; unfold after; simpl. by rewrite (right_id_L [] (++)).
Qed.

Lemma stream_app evs1 evs2 : stream (evs1 ++ evs2) = stream evs1 ++ stream evs2.
Proof. apply omap_app. Qed.

Lemma commands_app evs1 evs2 :
  commands (evs1 ++ evs2) = commands evs1 ++ commands evs2.
Proof. apply omap_app. Qed.

Lemma closes_app evs1 evs2 : closes (evs1 ++ evs2) = (closes evs1 + closes evs2)%nat.
Proof. unfold closes. by rewrite omap_app, length_app. Qed.

(** The loop never closes the channel. *)
Lemma history_closes m d data c : closes (events (history m d data c).1) = 0%nat.
Proof.
  revert c. induction data as [|r data IH]; intros c; [done|].
  rewrite history_cons.
  generalize (λ c', IH c'). clear IH.
  unfold closes in *.
  record_cases m d r; intros IH; simpl; auto.
Qed.

(** A loop that reaches the end has sent the email of every record that
    has a header, in order, and nothing else. *)
Lemma history_Next m d data c :
  (history m d data c).2 = Next →
  stream (events (history m d data c).1) = emailResponse <$> omap parse data.
Proof.
  revert c. induction data as [|r data IH]; intros c; [done|].
  rewrite history_cons.
  generalize (λ c', IH c'). clear IH.
  unfold stream in *.
  record_cases m d r; intros IH Hf; simpl in *; try done;
    rewrite ?IH; done.
Qed.

Lemma history_Next_noErr m d data c :
  (history m d data c).2 = Next →
  Forall noErr (stream (events (history m d data c).1)).
Proof.
  intros Hf. rewrite history_Next by done.
  apply Forall_fmap, Forall_true. done.
Qed.

Lemma endsInError_one err : endsInError (Msg:=Msg) [EvSend (errResponse err)].
Proof. exists [], err. split; [done|constructor]. Qed.

Lemma endsInError_cons ev evs :
  Forall noErr (stream [ev]) → endsInError evs → endsInError (ev :: evs).
Proof.
  intros Hev (evs0 & err & -> & Hno). exists (ev :: evs0), err. split; [done|].
  change (ev :: evs0) with ([ev] ++ evs0). rewrite stream_app.
  by apply Forall_app.
Qed.

(** A loop that returns early has sent one error, and has sent it last. *)
Lemma history_Return_shape m d data c :
  (history m d data c).2 = Return → endsInError (events (history m d data c).1).
Proof.
  revert c. induction data as [|r data IH]; intros c; [done|].
  rewrite history_cons.
  generalize (λ c', IH c'). clear IH.
  record_cases m d r; intros IH Hf; simpl in *;
    repeat (apply endsInError_cons; [by repeat constructor|]);
    auto using endsInError_one.
Qed.

(** A loop that returns early returns at some record, having gone through
    the ones before it; the records after it play no part. *)
Lemma processRecords_Return m d data w w' :
  processRecords m d data w = (w', Return) →
  ∃ pre r post w1,
    data = pre ++ r :: post ∧
    processRecords m d pre w = (w1, Next) ∧
    processRecord m d r w1 = (w', Return).
Proof.
  revert w. induction data as [|r data IH]; intros w; simpl; [done|].
  destruct (processRecord m d r w) as [w1 []] eqn:Hr.
  - intros (pre & r' & post & w2 & -> & Hpre & Hr')%IH.
    exists (r :: pre), r', post, w2. simpl. by rewrite Hr.
  - intros [= <-]. by exists [], r, data, w.
Qed.

Lemma processRecords_truncated m d pre r post w w1 w' :
  processRecords m d pre w = (w1, Next) →
  processRecord m d r w1 = (w', Return) →
  processRecords m d (pre ++ r :: post) w = (w', Return).
Proof. intros Hpre Hr. rewrite processRecords_app, Hpre. simpl. by rewrite Hr. Qed.

(** A record without the header item leaves no trace. *)
Lemma processRecord_skip m d r w :
  r !! "RFC822.HEADER" = None → processRecord m d r w = (w, Next).
Proof. intros Hr. unfold processRecord. by rewrite Hr. Qed.

Lemma processRecords_skip m d pre r post w :
  r !! "RFC822.HEADER" = None →
  processRecords m d (pre ++ r :: post) w = processRecords m d (pre ++ post) w.
Proof.
  intros Hr. rewrite !processRecords_app.
  destruct (processRecords m d pre w) as [w1 []]; simpl; [|done].
  by rewrite processRecord_skip.
Qed.

(** Well-formed records and stores that succeed take the loop to its end. *)
Lemma history_complete m d data c :
  Forall wellFormed data →
  Forall (λ ev, storeFailed ev = false) (events (history m d data c).1) →
  (history m d data c).2 = Next.
Proof.
  revert c. induction data as [|r data IH]; intros c; [done|].
  rewrite history_cons. intros [Hr Hdata]%Forall_cons. revert Hr.
  generalize (λ c', IH c' Hdata). clear IH. unfold wellFormed.
  record_cases m d r; intros IH [? ?] Hst; simpl in *; try done;
    repeat match goal with
           | H : Forall _ (_ :: _) |- _ => apply Forall_cons in H as [? H]
           end;
    simpl in *; try done; by apply IH.
Qed.

(** The loop issues nothing but stores. *)
Lemma history_commands m d data c :
  Forall isStore (commands (events (history m d data c).1)).
Proof.
  revert c. induction data as [|r data IH]; intros c; [constructor|].
  rewrite history_cons.
  generalize (λ c', IH c'). clear IH. unfold commands.
  record_cases m d r; intros IH; simpl; repeat constructor; auto.
Qed.

Lemma count_app {A} (p : A → bool) l1 l2 :
  count p (l1 ++ l2) = (count p l1 + count p l2)%nat.
Proof. unfold count. by rewrite List.filter_app, length_app. Qed.

Lemma history_unreadFollows m d data c tail :
  m = false →
  unreadFollows tail = true →
  unreadFollows (events (history m d data c).1 ++ tail) = true.
Proof.
  intros Hm Htail. revert c. induction data as [|r data IH]; intros c; [done|].
  rewrite history_cons.
  generalize (λ c', IH c'). clear IH. revert Hm.
  record_cases m d r; intros Hm IH; simpl; unfold unreadStore; try done;
    rewrite ?bool_decide_true by done; simpl; auto.
Qed.

Lemma history_unread_count m d data c :
  m = false →
  count isUnreadStore (commands (events (history m d data c).1)) =
  count isEmail (stream (events (history m d data c).1)).
Proof.
  intros Hm. revert c. induction data as [|r data IH]; intros c; [done|].
  rewrite history_cons.
  generalize (λ c', IH c'). clear IH. unfold count, commands, stream in *.
  revert Hm.
  record_cases m d r; intros Hm IH; simpl; try done; auto.
Qed.

(** The first loop of [getEmails] gathers every number found. *)
Lemma collectUIDs_set data : (collectUIDs data).1 = list_to_set (concat data).
Proof.
  unfold collectUIDs.
  assert (Hin : ∀ rsp (acc : SeqSet * nat),
    (foldl (λ acc uid, (AddNum acc.1 uid, S acc.2)) acc rsp).1 =
    acc.1 ∪ list_to_set rsp).
  { induction rsp as [|uid rsp IH]; intros acc; simpl.
    - set_solver.
    - rewrite IH. unfold AddNum. simpl. set_solver. }
  assert (Hout : ∀ (acc : SeqSet * nat),
    (foldl (λ acc rsp, foldl (λ acc uid, (AddNum acc.1 uid, S acc.2)) acc rsp)
           acc data).1 = acc.1 ∪ list_to_set (concat data)).
  { induction data as [|rsp data IH]; intros acc; simpl.
    - set_solver.
    - rewrite IH, Hin, list_to_set_app_L. set_solver. }
  rewrite Hout. set_solver.
Qed.

Lemma Empty_collectUIDs data :
  Empty (collectUIDs data).1 = bool_decide (concat data = []).
Proof.
  unfold Empty. rewrite collectUIDs_set.
  destruct (concat data) as [|uid l]; simpl.
  - by rewrite !bool_decide_true.
  - rewrite !bool_decide_false; [done..|]. set_solver.
Qed.

(** The history of a retrieval call, by what the session answers. *)
Lemma worker_events search since m d c :
  events (worker search since m d (mkWorld c [])) =
  let specs := searchSpecs search since in
  match UIDSearch specs c with
  | (c1, inl err) =>
    [EvCmd (CSearch specs) (Some err);
     EvSend (errResponse ("uid search failed: " +:+ err)); EvClose]
  | (c1, inr data) =>
    let seq := (collectUIDs data).1 in
    EvCmd (CSearch specs) None ::
    (if Empty seq then []
     else
       match UIDFetch seq fetchItems c1 with
       | (c2, inl err) =>
         [EvCmd (CFetch seq fetchItems) (Some err);
          EvSend (errResponse ("unable to perform uid fetch: " +:+ err))]
       | (c2, inr fdata) =>
         EvCmd (CFetch seq fetchItems) None :: events (history m d fdata c2).1
       end) ++ [EvClose]
  end.
Proof.
  unfold worker, findEmails, getEmails; simpl.
  destruct (UIDSearch _ c) as [c1 [err|data]]; simpl; [done|].
  destruct (collectUIDs data) as [seq msgCount]; simpl.
  destruct (Empty seq); [done|]. simpl.
  destruct (UIDFetch seq _ c1) as [c2 [err|fdata]]; simpl; [done|].
  change (issue _ None c2 _) with
    (@after Conn Msg [EvCmd (CSearch (searchSpecs search since)) None;
                      EvCmd (CFetch seq fetchItems) None] (mkWorld c2 [])).
  by rewrite processRecords_after.
Qed.

Lemma failsLast_cons cmd e ev evs : failsLast cmd e evs → failsLast cmd e (ev :: evs).
Proof. intros [evs0 ->]. by exists (ev :: evs0). Qed.

Lemma failsLast_two cmd e :
  failsLast (Msg:=Msg) cmd e
    [EvCmd cmd (Some e); EvSend (errResponse (errPrefix cmd +:+ e))].
Proof. by exists []. Qed.

(** A command that fails in the loop is the last one, and its error is
    sent right after it. *)
Lemma history_failed m d data c cmd e :
  EvCmd cmd (Some e) ∈ events (history m d data c).1 →
  failsLast cmd e (events (history m d data c).1).
Proof.
  revert c. induction data as [|r data IH]; intros c.
  { by intros ?%elem_of_nil. }
  rewrite history_cons.
  generalize (λ c', IH c'). clear IH.
  record_cases m d r; intros IH Hin; simpl in *; auto;
    repeat (apply elem_of_cons in Hin as [Heq|Hin];
            [try discriminate Heq; try (injection Heq as -> ->)|]);
    try (by apply elem_of_nil in Hin);
    repeat (first [apply failsLast_two | apply failsLast_cons]); auto.
Qed.
(** The errors the loop sends are those of parsing and of the stores. *)
Lemma history_knownErrors m d data c :
  Forall knownError (stream (events (history m d data c).1)).
Proof.
  revert c. induction data as [|r data IH]; intros c; [constructor|].
  rewrite history_cons.
  generalize (λ c', IH c'). clear IH. unfold stream.
  record_cases m d r; intros IH; simpl; auto;
    repeat (constructor; auto);
    intros e' [= <-];
    match goal with
    | |- ∃ kind cause, _ ∧ ?a +:+ ?b = kind +:+ cause => exists a, b
    end; (split; [set_solver|done]).
Qed.

End Loop.

(** ** The date of a search *)

Lemma string_app_nil_r (s : string) : s +:+ "" = s.
Proof.
  induction s as [|a s IH]; [done|].
  transitivity (String a (s +:+ "")); [done|by rewrite IH].
Qed.

Lemma string_length_app (s1 s2 : string) :
  String.length (s1 +:+ s2) = (String.length s1 + String.length s2)%nat.
Proof.
  induction s1 as [|a s1 IH]; [done|].
  change (String a s1 +:+ s2) with (String a (s1 +:+ s2)).
  simpl. by rewrite IH.
Qed.




(** ** The retrieval call *)

Section Retrieval.
Context {Conn Msg : Type} `{!Session Conn, !MailReader Msg}.
Implicit Types (c : Conn) (evs : list (Event Msg)).

Lemma generateMail_events search since m d c :
  events (generateMail search since m d c).1 =
  events (worker search since m d (mkWorld c [])).
Proof. done. Qed.




(** C8: a search that finds no identifier closes the stream at once: the
    history of the call is the search and the close of the channel, so no
    Email and no error is sent and neither a fetch nor a store is issued. *)
Theorem empty_search_closes_stream search since m d c c1 data :
  UIDSearch (searchSpecs search since) c = (c1, inr data) →
  concat data = [] →
  generateMail search since m d c =
    (mkWorld c1 [EvCmd (CSearch (searchSpecs search since)) None; EvClose], None) ∧
  stream (events (generateMail search since m d c).1) = [] ∧
  commands (events (generateMail search since m d c).1) =
    [CSearch (searchSpecs search since)] ∧
  closes (events (generateMail search since m d c).1) = 1%nat.
Proof.
  intros Hs Hd.
  assert (generateMail search since m d c =
    (mkWorld c1 [EvCmd (CSearch (searchSpecs search since)) None; EvClose], None))
    as ->; [|done].
  unfold generateMail, worker, findEmails, getEmails; simpl. rewrite Hs; simpl.
  pose proof (Empty_collectUIDs data) as He.
  rewrite bool_decide_true in He by done.
  destruct (collectUIDs data) as [seq n]; simpl in *. by rewrite He.
Qed.

(** C10: the three generators return a nil error whatever happens, so
    that [GetAll] always goes on to read the channel; a search that fails
    is reported by the one response on the channel, and the error of any
    command that fails is sent as the last response. *)
Theorem generators_return_nil m d c :
  (GenerateAll m d c).2 = None ∧
  (GenerateUnread m d c).2 = None ∧
  (∀ since, (GenerateSince since m d c).2 = None) ∧
  GetAll m d c = drain [] (stream (events (GenerateAll m d c).1)) ∧
  (∀ search since,
     (generateMail search since m d c).2 = None ∧
     (∀ c1 err,
        UIDSearch (searchSpecs search since) c = (c1, inl err) →
        stream (events (generateMail search since m d c).1) =
          [errResponse ("uid search failed: " +:+ err)]) ∧
     (∀ cmd err,
        EvCmd cmd (Some err) ∈ events (generateMail search since m d c).1 →
        last (stream (events (generateMail search since m d c).1)) =
          Some (errResponse (errPrefix cmd +:+ err)))).
Proof.
  repeat split; try done.
  - intros c1 err Hs. rewrite generateMail_events, worker_events; simpl.
    by rewrite Hs.
  - intros cmd err. rewrite generateMail_events, worker_events; simpl.
    destruct (UIDSearch _ c) as [c1 [e|data]]; simpl.
    { intros Hin.
      repeat (apply elem_of_cons in Hin as [Heq|Hin];
              [try discriminate Heq; try (injection Heq as -> ->)|]);
        [done|by apply elem_of_nil in Hin]. }
    destruct (Empty _); simpl.
    { intros Hin.
      repeat (apply elem_of_cons in Hin as [Heq|Hin]; [discriminate Heq|]).
      by apply elem_of_nil in Hin. }
    destruct (UIDFetch _ _ c1) as [c2 [e|fdata]]; simpl.
    { intros Hin.
      repeat (apply elem_of_cons in Hin as [Heq|Hin];
              [try discriminate Heq; try (injection Heq as -> ->)|]);
        [done|by apply elem_of_nil in Hin]. }
    intros Hin.
    do 2 (apply elem_of_cons in Hin as [Heq|Hin]; [discriminate Heq|]).
    apply elem_of_app in Hin as [Hin|Hin].
    + apply history_failed in Hin as [evs0 ->].
      unfold stream. simpl. rewrite <- (assoc_L (++)). simpl.
      rewrite omap_app. simpl. by rewrite last_snoc.
    + apply elem_of_cons in Hin as [Heq|Hin]; [discriminate Heq|].
      by apply elem_of_nil in Hin.
Qed.

(** The history of a call whose search and fetch both succeed. *)
Lemma generateMail_fetched search since m d c c1 data c2 fdata :
  UIDSearch (searchSpecs search since) c = (c1, inr data) →
  Empty (collectUIDs data).1 = false →
  UIDFetch (collectUIDs data).1 fetchItems c1 = (c2, inr fdata) →
  events (generateMail search since m d c).1 =
    EvCmd (CSearch (searchSpecs search since)) None ::
    EvCmd (CFetch (collectUIDs data).1 fetchItems) None ::
    events (history m d fdata c2).1 ++ [EvClose].
Proof.
  intros Hs He Hf. rewrite generateMail_events, worker_events; simpl.
  by rewrite Hs, He, Hf.
Qed.

Lemma generateMail_sess_fetched search since m d c c1 data c2 fdata :
  UIDSearch (searchSpecs search since) c = (c1, inr data) →
  Empty (collectUIDs data).1 = false →
  UIDFetch (collectUIDs data).1 fetchItems c1 = (c2, inr fdata) →
  sess (generateMail search since m d c).1 = sess (history m d fdata c2).1.
Proof.
  intros Hs He Hf. unfold generateMail, worker, findEmails, getEmails; simpl.
  rewrite Hs; simpl.
  destruct (collectUIDs data) as [seq n]; simpl in *. rewrite He, Hf; simpl.
  change (issue _ None c2 _) with
    (@after Conn Msg [EvCmd (CSearch (searchSpecs search since)) None;
                      EvCmd (CFetch seq fetchItems) None] (mkWorld c2 [])).
  by rewrite processRecords_after.
Qed.

Lemma emitsAll_omap fdata :
  Forall wellFormed fdata →
  Forall2 (λ r resp, ∃ email, parse r = Some email ∧ resp = emailResponse email)
          fdata (emailResponse <$> omap parse fdata).
Proof.
  induction 1 as [|r fdata [email Hr] _ IH]; simpl; [constructor|].
  rewrite Hr. simpl. constructor; eauto.
Qed.

(** C1, as amended: when the search and the fetch of a call succeed, the
    fetch returns N well-formed records and no store of a flag fails, the
    stream carries exactly N responses, the i-th being the email of the
    i-th record, and none is an error. *)
Theorem emits_every_record_in_order search since m d c c1 data c2 fdata :
  UIDSearch (searchSpecs search since) c = (c1, inr data) →
  Empty (collectUIDs data).1 = false →
  UIDFetch (collectUIDs data).1 fetchItems c1 = (c2, inr fdata) →
  Forall wellFormed fdata →
  Forall (λ ev, storeFailed ev = false) (events (generateMail search since m d c).1) →
  emitsAll fdata (events (generateMail search since m d c).1) ∧
  length (stream (events (generateMail search since m d c).1)) = length fdata ∧
  Forall noErr (stream (events (generateMail search since m d c).1)).
Proof.
  intros Hs He Hf Hwf Hst.
  rewrite (generateMail_fetched _ _ _ _ _ _ _ _ _ Hs He Hf) in *.
  do 2 apply Forall_cons in Hst as [_ Hst].
  apply Forall_app in Hst as [Hst _].
  pose proof (history_complete _ _ _ _ Hwf Hst) as Hn.
  assert (stream (EvCmd (CSearch (searchSpecs search since)) None ::
                  EvCmd (CFetch (collectUIDs data).1 fetchItems) None ::
                  events (history m d fdata c2).1 ++ [EvClose]) =
          emailResponse <$> omap parse fdata) as Hstream.
  { change (stream (?a :: ?b :: ?l)) with (stream l).
    rewrite stream_app, history_Next by done. apply (right_id_L [] (++)). }
  unfold emitsAll. rewrite Hstream. split_and!.
  - by apply emitsAll_omap.
  - symmetry. eapply Forall2_length, emitsAll_omap, Hwf.
  - apply Forall_fmap, Forall_true. done.
Qed.

(** C2: the history of every call ends with the one close of the channel;
    before it at most one response carries an error, and that response is
    the last thing the worker does before the close.  An error sent is one
    of the search, of the fetch, of parsing or of a store.  A loop that
    returns early does so at one record, whatever records follow it. *)
Theorem one_error_then_close search since m d c :
  (∃ evs0,
     events (generateMail search since m d c).1 = evs0 ++ [EvClose] ∧
     closes evs0 = 0%nat ∧
     (Forall noErr (stream evs0) ∨ endsInError evs0)) ∧
  closes (events (generateMail search since m d c).1) = 1%nat ∧
  Forall knownError (stream (events (generateMail search since m d c).1)) ∧
  (∀ data (w w' : World Conn Msg),
     processRecords m d data w = (w', Return) →
     ∃ pre r post,
       data = pre ++ r :: post ∧
       (processRecords m d pre w).2 = Next ∧
       ∀ post', processRecords m d (pre ++ r :: post') w = (w', Return)).
Proof.
  assert (∃ evs0,
     events (generateMail search since m d c).1 = evs0 ++ [EvClose] ∧
     closes evs0 = 0%nat ∧
     (Forall noErr (stream evs0) ∨ endsInError evs0)) as Hshape.
  { rewrite generateMail_events, worker_events; simpl.
    destruct (UIDSearch _ c) as [c1 [err|data]]; simpl.
    { eexists [_; _]. split; [done|]. split; [done|]. right.
      apply endsInError_cons; [constructor|apply endsInError_one]. }
    destruct (Empty _); simpl.
    { eexists [_]. split; [done|]. split; [done|]. left. constructor. }
    destruct (UIDFetch _ _ c1) as [c2 [err|fdata]]; simpl.
    { eexists [_; _; _]. split; [done|]. split; [done|]. right.
      do 2 (apply endsInError_cons; [constructor|]). apply endsInError_one. }
    eexists (_ :: _ :: _). split; [done|]. split.
    { change (closes (?a :: ?b :: ?l)) with (closes l). apply history_closes. }
    destruct (history m d fdata c2).2 eqn:Hflow.
    - left. apply history_Next_noErr, Hflow.
    - right. do 2 (apply endsInError_cons; [constructor|]).
      apply history_Return_shape, Hflow. }
  split; [done|]. split_and!.
  - destruct Hshape as (evs0 & -> & Hc & _). by rewrite closes_app, Hc.
  - clear Hshape. rewrite generateMail_events, worker_events; simpl.
    assert (∀ kind cause, kind ∈ errorKinds →
              knownError (Msg:=Msg) (errResponse (kind +:+ cause))) as Hknown.
    { intros kind cause Hkind e [= <-]. by exists kind, cause. }
    destruct (UIDSearch _ c) as [c1 [err|data]]; simpl.
    { repeat constructor. apply Hknown. set_solver. }
    destruct (Empty _); simpl; [constructor|].
    destruct (UIDFetch _ _ c1) as [c2 [err|fdata]]; simpl.
    { repeat constructor. apply Hknown. set_solver. }
    change (stream (?a :: ?b :: ?l)) with (stream l).
    rewrite stream_app. apply Forall_app. split; [|constructor].
    apply history_knownErrors.
  - intros data w w' (pre & r & post & w1 & -> & Hpre & Hr)%processRecords_Return.
    exists pre, r, post. split; [done|]. split; [by rewrite Hpre|].
    intros post'. by eapply processRecords_truncated.
Qed.

(** C3: with markAsRead false, every email sent is followed at once by
    the store that removes the seen flag from its number, and there are as
    many such stores as emails.  When the store for the record [r] fails,
    the records before it having gone through, the stream is the emails of
    the records up to and including [r], then the error of the store; the
    history ends there with the close, and the session stays as the failed
    store left it, whatever records follow [r]. *)
Theorem unread_store_follows_each_email search since d c :
  unreadFollows (events (generateMail search since false d c).1) = true ∧
  count isUnreadStore (commands (events (generateMail search since false d c).1)) =
    count isEmail (stream (events (generateMail search since false d c).1)) ∧
  (∀ c1 data c2 pre r post w1 email c3 e,
     UIDSearch (searchSpecs search since) c = (c1, inr data) →
     Empty (collectUIDs data).1 = false →
     UIDFetch (collectUIDs data).1 fetchItems c1 = (c2, inr (pre ++ r :: post)) →
     history false d pre c2 = (w1, Next) →
     parse r = Some email →
     UIDStore (AddNum ∅ (AsNumber (ID email))) "-FLAGS" "\SEEN" (sess w1) = (c3, Some e) →
     stream (events (generateMail search since false d c).1) =
       (emailResponse <$> omap parse pre ++ [email]) ++
       [errResponse ("unable to remove seen flag: " +:+ e)] ∧
     (∃ evs0,
        events (generateMail search since false d c).1 =
          evs0 ++ [EvSend (emailResponse email);
                   EvCmd (unreadStore email) (Some e);
                   EvSend (errResponse ("unable to remove seen flag: " +:+ e));
                   EvClose]) ∧
     sess (generateMail search since false d c).1 = c3).
Proof.
  split_and!.
  - rewrite generateMail_events, worker_events; simpl.
    destruct (UIDSearch _ c) as [c1 [err|data]]; simpl; [done|].
    destruct (Empty _); [done|]. simpl.
    destruct (UIDFetch _ _ c1) as [c2 [err|fdata]]; simpl; [done|].
    by apply history_unreadFollows.
  - rewrite generateMail_events, worker_events; simpl.
    destruct (UIDSearch _ c) as [c1 [err|data]]; simpl; [done|].
    destruct (Empty _); [done|]. simpl.
    destruct (UIDFetch _ _ c1) as [c2 [err|fdata]]; simpl; [done|].
    match goal with
    | |- count _ (?a :: ?b :: ?l) = _ => change (a :: b :: l) with ([a; b] ++ l)
    end.
    rewrite !commands_app, !stream_app, !count_app.
    by rewrite history_unread_count.
  - intros c1 data c2 pre r post w1 email c3 e Hs He Hf Hpre Hr Hst.
    assert (history false d (pre ++ r :: post) c2 =
      (mkWorld c3 (events w1 ++
         [EvSend (emailResponse email); EvCmd (unreadStore email) (Some e);
          EvSend (errResponse ("unable to remove seen flag: " +:+ e))]), Return)) as Hh.
    { unfold history in *. rewrite processRecords_app, Hpre. simpl.
      revert Hr. unfold parse, processRecord, SetAsUnread, alterEmail.
      destruct (r !! "RFC822.HEADER"); [|done].
      destruct (newEmail r) as [email'|]; [|done]. intros [= ->]. simpl.
      rewrite Hst. unfold issue, send, emit; simpl.
      by rewrite <- !(assoc_L (++)). }
    pose proof (history_Next false d pre c2) as Hstream.
    rewrite Hpre in Hstream. simpl in Hstream. specialize (Hstream eq_refl).
    split_and!.
    + rewrite (generateMail_fetched _ _ _ _ _ _ _ _ _ Hs He Hf), Hh. simpl.
      change (stream (?a :: ?b :: ?l)) with (stream l).
      rewrite !stream_app, Hstream, fmap_app. simpl.
      by rewrite <- !(assoc_L (++)).
    + rewrite (generateMail_fetched _ _ _ _ _ _ _ _ _ Hs He Hf), Hh. simpl.
      eexists (_ :: _ :: events w1). simpl. by rewrite <- !(assoc_L (++)).
    + by rewrite (generateMail_sess_fetched _ _ _ _ _ _ _ _ _ Hs He Hf), Hh.
Qed.

(** C4, as amended: a record without the header item is passed over
    without a response and without a command: the loop does on a list with
    such a record what it does on the list without it.  So when the search
    and the fetch succeed, the fetch returns N well-formed records with
    one such record among them and no store of a flag fails, the stream
    carries exactly the N emails, in the order of their records, and no
    error. *)
Theorem partial_record_is_skipped m d pre r post :
  r !! "RFC822.HEADER" = None →
  (∀ w : World Conn Msg,
     processRecords m d (pre ++ r :: post) w = processRecords m d (pre ++ post) w) ∧
  (∀ search since c c1 data c2,
     UIDSearch (searchSpecs search since) c = (c1, inr data) →
     Empty (collectUIDs data).1 = false →
     UIDFetch (collectUIDs data).1 fetchItems c1 = (c2, inr (pre ++ r :: post)) →
     Forall wellFormed (pre ++ post) →
     Forall (λ ev, storeFailed ev = false) (events (generateMail search since m d c).1) →
     emitsAll (pre ++ post) (events (generateMail search since m d c).1) ∧
     length (stream (events (generateMail search since m d c).1)) = length (pre ++ post) ∧
     Forall noErr (stream (events (generateMail search since m d c).1))).
Proof.
  intros Hr. split; [intros w; by apply processRecords_skip|].
  intros search since c c1 data c2 Hs He Hf Hwf Hst.
  rewrite (generateMail_fetched _ _ _ _ _ _ _ _ _ Hs He Hf) in *.
  assert (history m d (pre ++ r :: post) c2 = history m d (pre ++ post) c2) as Heq
    by (by apply processRecords_skip).
  rewrite Heq in *. clear Heq.
  do 2 apply Forall_cons in Hst as [_ Hst].
  apply Forall_app in Hst as [Hst _].
  pose proof (history_complete _ _ _ _ Hwf Hst) as Hn.
  assert (stream (EvCmd (CSearch (searchSpecs search since)) None ::
                  EvCmd (CFetch (collectUIDs data).1 fetchItems) None ::
                  events (history m d (pre ++ post) c2).1 ++ [EvClose]) =
          emailResponse <$> omap parse (pre ++ post)) as Hstream.
  { change (stream (?a :: ?b :: ?l)) with (stream l).
    rewrite stream_app, history_Next by done. apply (right_id_L [] (++)). }
  unfold emitsAll. rewrite Hstream. split_and!.
  - by apply emitsAll_omap.
  - symmetry. eapply Forall2_length, emitsAll_omap, Hwf.
  - apply Forall_fmap, Forall_true. done.
Qed.

End Retrieval.

(** ** Trimming *)

Lemma string_app_assoc (s1 s2 s3 : string) : (s1 +:+ s2) +:+ s3 = s1 +:+ s2 +:+ s3.
Proof.
  induction s1 as [|a s1 IH]; [done|].
  transitivity (String a ((s1 +:+ s2) +:+ s3)); [done|by rewrite IH].
Qed.

Lemma rev_app_app (s1 s2 : string) : String.rev_app s1 s2 = String.rev s1 +:+ s2.
Proof.
  unfold String.rev. revert s2. induction s1 as [|a s1 IH]; intros s2; [done|].
  simpl. rewrite IH, (IH (String a "")). by rewrite string_app_assoc.
Qed.

Lemma string_rev_cons a (s : string) : String.rev (String a s) = String.rev s +:+ String a "".
Proof. unfold String.rev at 1. simpl. apply rev_app_app. Qed.

Lemma string_rev_app (s1 s2 : string) :
  String.rev (s1 +:+ s2) = String.rev s2 +:+ String.rev s1.
Proof.
  induction s1 as [|a s1 IH].
  - by rewrite string_app_nil_r.
  - change (String a s1 +:+ s2) with (String a (s1 +:+ s2)).
    by rewrite !string_rev_cons, IH, string_app_assoc.
Qed.

Lemma string_rev_involutive (s : string) : String.rev (String.rev s) = s.
Proof.
  induction s as [|a s IH]; [done|].
  by rewrite string_rev_cons, string_rev_app, IH.
Qed.

Lemma stripPrefix_Some p s s' : stripPrefix p s = Some s' ↔ s = p +:+ s'.
Proof.
  revert s. induction p as [|a p IH]; intros s; simpl.
  - split; [by intros [= ->]|by intros ->].
  - destruct s as [|b s]; [done|].
    change (String a p +:+ s') with (String a (p +:+ s')).
    destruct (Ascii.eqb_spec a b) as [->|Hab].
    + rewrite IH. split; [by intros ->|by intros [= ->]].
    + split; [done|]. intros [= <- _]. done.
Qed.

Lemma stripRune_Some runes s s' :
  stripRune runes s = Some s' → ∃ r, r ∈ runes ∧ s = r +:+ s'.
Proof.
  induction runes as [|r runes IH]; simpl; [done|].
  destruct (stripPrefix r s) as [s0|] eqn:Hr.
  - intros [= <-]. exists r. split; [left|]. by apply stripPrefix_Some.
  - intros (r' & Hin & ->)%IH. exists r'. split; [by right|done].
Qed.

Lemma stripRune_None runes s r s' :
  stripRune runes s = None → r ∈ runes → s ≠ r +:+ s'.
Proof.
  induction runes as [|r0 runes IH]; simpl.
  { by intros _ ?%elem_of_nil. }
  destruct (stripPrefix r0 s) as [s0|] eqn:Hr; [done|].
  intros Hnone [->|Hin]%elem_of_cons; [|by apply IH].
  intros ->. by rewrite (proj2 (stripPrefix_Some r0 _ s') eq_refl) in Hr.
Qed.

Lemma trimLeft_split fuel runes s :
  ∃ l, runOf runes l ∧ s = l +:+ trimLeft fuel runes s.
Proof.
  revert s. induction fuel as [|fuel IH]; intros s; simpl.
  { exists "". split; [constructor|done]. }
  destruct (stripRune runes s) as [s'|] eqn:Hs.
  - apply stripRune_Some in Hs as (r & Hr & ->).
    destruct (IH s') as (l & Hl & Heq).
    exists (r +:+ l). split; [by constructor|].
    by rewrite string_app_assoc, <- Heq.
  - exists "". split; [constructor|done].
Qed.

Lemma trimLeft_done fuel runes s :
  Forall (λ r, r ≠ "") runes →
  (String.length s ≤ fuel)%nat →
  stripRune runes (trimLeft fuel runes s) = None.
Proof.
  intros Hne. revert s. induction fuel as [|fuel IH]; intros s Hlen; simpl.
  - destruct s; [|simpl in Hlen; lia].
    clear Hlen. induction Hne as [|r runes Hr _ IHr]; simpl; [done|].
    by destruct r.
  - destruct (stripRune runes s) as [s'|] eqn:Hs; [|done].
    apply IH. apply stripRune_Some in Hs as (r & Hr & ->).
    rewrite string_length_app in Hlen.
    rewrite Forall_forall in Hne. specialize (Hne r Hr).
    destruct r; [done|]. simpl in Hlen. lia.
Qed.

Lemma runOf_snoc runes s r : runOf runes s → r ∈ runes → runOf runes (s +:+ r).
Proof.
  intros Hs Hr. induction Hs as [|r0 s Hr0 _ IH].
  - change ("" +:+ r) with r. rewrite <- (string_app_nil_r r).
    apply runOf_cons; [done|constructor].
  - rewrite string_app_assoc. by constructor.
Qed.

Lemma runOf_rev runes s :
  runOf (map String.rev runes) s → runOf runes (String.rev s).
Proof.
  induction 1 as [|r s Hr _ IH]; [constructor|].
  rewrite string_rev_app. apply runOf_snoc; [done|].
  apply list_elem_of_In, in_map_iff in Hr as (r0 & <- & Hr0).
  rewrite string_rev_involutive. by apply list_elem_of_In.
Qed.

Lemma string_rev_length (s : string) : String.length (String.rev s) = String.length s.
Proof.
  induction s as [|a s IH]; [done|].
  rewrite string_rev_cons, string_length_app, IH. simpl. lia.
Qed.

Lemma spaceRunes_nonempty : Forall (λ r, r ≠ "") spaceRunes.
Proof. by repeat constructor. Qed.

Lemma rev_spaceRunes_nonempty : Forall (λ r, r ≠ "") (map String.rev spaceRunes).
Proof. by repeat constructor. Qed.

(** [TrimSpace] cuts a run of white space off each end, and what it leaves
    neither starts nor ends with white space. *)
Lemma TrimSpace_trims (s : string) :
  (∃ l r, runOf spaceRunes l ∧ runOf spaceRunes r ∧ s = l +:+ TrimSpace s +:+ r) ∧
  (∀ r t, r ∈ spaceRunes → TrimSpace s ≠ r +:+ t) ∧
  (∀ r t, r ∈ spaceRunes → TrimSpace s ≠ t +:+ r).
Proof.
  unfold TrimSpace.
  set (l0 := trimLeft (String.length s) spaceRunes s).
  set (u := trimLeft (String.length l0) (map String.rev spaceRunes) (String.rev l0)).
  destruct (trimLeft_split (String.length s) spaceRunes s) as (l & Hl & Hs).
  destruct (trimLeft_split (String.length l0) (map String.rev spaceRunes) (String.rev l0))
    as (r & Hr & Hl0).
  fold l0 in Hs. fold u in Hl0.
  assert (l0 = String.rev u +:+ String.rev r) as Hl0'.
  { by rewrite <- string_rev_app, <- Hl0, string_rev_involutive. }
  assert (stripRune spaceRunes l0 = None) as Hlead
    by (apply trimLeft_done; [apply spaceRunes_nonempty|done]).
  assert (stripRune (map String.rev spaceRunes) u = None) as Htrail.
  { apply trimLeft_done; [apply rev_spaceRunes_nonempty|].
    by rewrite string_rev_length. }
  split_and!.
  - exists l, (String.rev r). split; [done|]. split; [by apply runOf_rev|].
    by rewrite <- Hl0'.
  - intros ρ t Hρ Heq.
    apply (stripRune_None _ _ ρ (t +:+ String.rev r) Hlead Hρ).
    by rewrite Hl0', Heq, string_app_assoc.
  - intros ρ t Hρ Heq.
    apply (stripRune_None _ _ (String.rev ρ) (String.rev t) Htrail).
    + apply list_elem_of_In, in_map, list_elem_of_In, Hρ.
    + by rewrite <- string_rev_app, <- Heq, string_rev_involutive.
Qed.

(** ** The visible text *)

Lemma visibility_nonVisible tn isStart skip :
  visibility nonVisibleTags tn isStart skip =
  if bool_decide (tn ∈ nonVisible) then isStart else skip.
Proof.
  unfold nonVisibleTags, visibility, nonVisible, styleTag, scriptTag, headTag,
    metaTag, doctypeTag, shapeTag, imageDataTag, commentTag.
  repeat match goal with
         | |- context [String.eqb tn ?tag] =>
             destruct (String.eqb_spec tn tag) as [->|?];
             [rewrite bool_decide_true by set_solver; done|]
         end.
  rewrite bool_decide_false; [done|]. set_solver.
Qed.

Lemma length_zero_empty (s : string) :
  (String.length s =? 0)%nat = bool_decide (s = "").
Proof. by destruct s. Qed.

Lemma visibleTextLoop_flatFlag toks e text skip :
  visibleTextLoop toks e text skip =
  (fragments (foldl flatFlagStep (mkExtractor skip text) toks),
   match e with EOF => None | Failed err => Some err end).
Proof.
  revert text skip. induction toks as [|tok toks IH]; intros text skip.
  { by destruct e. }
  destruct tok as [t|tn|tn| | |];
    cbn [visibleTextLoop foldl flatFlagStep suppressed fragments]; try apply IH.
  - destruct skip; cbn [negb]; [apply IH|].
    rewrite length_zero_empty. case_bool_decide; apply IH.
  - rewrite visibility_nonVisible, IH. by case_bool_decide.
  - rewrite visibility_nonVisible, IH. by case_bool_decide.
Qed.

(** Fragments are only ever added at the end. *)
Lemma flatFlagStep_fragments st tok :
  fragments st `prefix_of` fragments (flatFlagStep st tok).
Proof.
  destruct tok; simpl; repeat case_match; simpl; try done.
  by apply prefix_app_r.
Qed.

Lemma foldl_flatFlagStep_fragments st toks :
  fragments st `prefix_of` fragments (foldl flatFlagStep st toks).
Proof.
  revert st. induction toks as [|tok toks IH]; intros st; simpl; [done|].
  etrans; [apply flatFlagStep_fragments|apply IH].
Qed.

Lemma foldl_flatFlagStep_Forall (Q : string → Prop) st toks :
  Forall Q (fragments st) →
  (∀ t, TextToken t ∈ toks → TrimSpace t ≠ "" → Q (TrimSpace t)) →
  Forall Q (fragments (foldl flatFlagStep st toks)).
Proof.
  revert st. induction toks as [|tok toks IH]; intros st Hst HQ; simpl; [done|].
  apply IH; [|intros t Ht; apply HQ; by right].
  destruct tok; simpl; repeat case_match; simpl; try done.
  apply Forall_app. split; [done|]. constructor; [|done].
  apply HQ; [by left|]. by eapply bool_decide_eq_false_1.
Qed.

(** C5: on every token stream [VisibleText] returns the fragments of the
    flat-flag extraction; every fragment is the trimmed text of a text
    token and is not empty; trimming cuts a run of white space off each end
    and leaves a text that neither starts nor ends with white space; what
    has been gathered after some tokens stays, in order, at the front of
    what is returned after more; and on the page of the example, whose
    tokens are listed, the result is "Hi" and "there". *)
Theorem VisibleText_is_flat_flag :
  (∀ toks e, (VisibleTextOf (mkTokenizer toks e)).1 = flatFlag toks) ∧
  (∀ toks e,
     Forall (λ f, f ≠ "" ∧ ∃ t, TextToken t ∈ toks ∧ f = TrimSpace t)
            (VisibleTextOf (mkTokenizer toks e)).1) ∧
  (∀ t,
     (∃ l r, runOf spaceRunes l ∧ runOf spaceRunes r ∧ t = l +:+ TrimSpace t +:+ r) ∧
     (∀ r t', r ∈ spaceRunes → TrimSpace t ≠ r +:+ t') ∧
     (∀ r t', r ∈ spaceRunes → TrimSpace t ≠ t' +:+ r)) ∧
  (∀ toks1 toks2 e,
     (VisibleTextOf (mkTokenizer toks1 e)).1 `prefix_of`
     (VisibleTextOf (mkTokenizer (toks1 ++ toks2) e)).1) ∧
  pending (NewTokenizer (mkReader page None)) =
    [StartTagToken "html"; StartTagToken "head"; StartTagToken "style";
     TextToken ".a{}"; EndTagToken "style"; EndTagToken "head";
     StartTagToken "body"; TextToken "Hi "; StartTagToken "b";
     TextToken "there"; EndTagToken "b"; EndTagToken "body";
     EndTagToken "html"] ∧
  VisibleText (mkReader page None) = (["Hi"; "there"], None).
Proof.
  split_and!.
  - intros toks e. unfold VisibleTextOf. simpl. by rewrite visibleTextLoop_flatFlag.
  - intros toks e. unfold VisibleTextOf. simpl. rewrite visibleTextLoop_flatFlag. simpl.
    apply foldl_flatFlagStep_Forall; [constructor|]. eauto.
  - apply TrimSpace_trims.
  - intros toks1 toks2 e. unfold VisibleTextOf. simpl.
    rewrite !visibleTextLoop_flatFlag. simpl. rewrite foldl_app.
    apply foldl_flatFlagStep_fragments.
  - by vm_compute.
  - by vm_compute.
Qed.

(** C6: when the tokens end with [io.EOF], wherever the input stopped,
    [VisibleText] returns the fragments gathered and a nil error; when they
    end with another error it returns the same fragments and that error.  A
    page cut inside a tag gives the fragments before the cut. *)
Theorem VisibleText_end_of_stream :
  (∀ toks, VisibleTextOf (mkTokenizer toks EOF) = (flatFlag toks, None)) ∧
  (∀ toks err, VisibleTextOf (mkTokenizer toks (Failed err)) = (flatFlag toks, Some err)) ∧
  (∀ s failure,
     VisibleText (mkReader s failure) = ((VisibleText (mkReader s None)).1, failure)) ∧
  VisibleText (mkReader "<p>Hi <b>there</b> you <sty" None) = (["Hi"; "there"; "you"], None) ∧
  VisibleText (mkReader "<p>Hi <b>there</b> you <sty" (Some "connection reset")) =
    (["Hi"; "there"; "you"], Some "connection reset").
Proof.
  split_and!.
  - intros toks. unfold VisibleTextOf. simpl. by rewrite visibleTextLoop_flatFlag.
  - intros toks err. unfold VisibleTextOf. simpl. by rewrite visibleTextLoop_flatFlag.
  - intros s failure. unfold VisibleText, VisibleTextOf, NewTokenizer. simpl.
    rewrite !visibleTextLoop_flatFlag. by destruct failure.
  - by vm_compute.
  - by vm_compute.
Qed.

(** ** Flags in the mailbox *)

Section Flags.
Context {Msg : Type} `{!MailReader Msg}.
Implicit Types (mb : Mailbox) (w : World Mailbox Msg) (email : Email Msg).






End Flags.

(** ** Runs on concrete sessions *)

Lemma emits_every_record_in_order_witness :
  emitsAll [letterA; letterB] (events (generateMail "ALL" None false true twoLetters).1) ∧
  length (stream (events (generateMail "ALL" None false true twoLetters).1)) = 2%nat ∧
  Forall noErr (stream (events (generateMail "ALL" None false true twoLetters).1)).
Proof.
  apply (emits_every_record_in_order "ALL" None false true twoLetters twoLetters
           [[1; 2]] twoLetters [letterA; letterB]).
  - reflexivity.
  - vm_compute. reflexivity.
  - reflexivity.
  - repeat constructor; vm_compute; eexists; reflexivity.
  - vm_compute. repeat constructor.
Defined.

(** C1 as stated fails: the search and the fetch succeed and return two
    well-formed records, the session refuses the store on the first, and
    the stream carries one email and an error instead of the two emails. *)
Lemma store_refused_one_email_of_two :
  UIDSearch (searchSpecs "ALL" None) refusingFirst = (refusingFirst, inr [[1; 2]]) ∧
  UIDFetch (collectUIDs [[1; 2]]).1 fetchItems refusingFirst =
    (refusingFirst, inr [letterA; letterB]) ∧
  Forall wellFormed [letterA; letterB] ∧
  stream (events (generateMail "ALL" None false false refusingFirst).1) =
    [emailResponse emailA; errResponse "unable to remove seen flag: NO"] ∧
  ¬ emitsAll [letterA; letterB]
      (events (generateMail "ALL" None false false refusingFirst).1).
Proof.
  assert (stream (events (generateMail "ALL" None false false refusingFirst).1) =
    [emailResponse emailA; errResponse "unable to remove seen flag: NO"]) as Hstream
    by (vm_compute; reflexivity).
  split_and!; try reflexivity; try done.
  - repeat constructor; vm_compute; eexists; reflexivity.
  - unfold emitsAll. rewrite Hstream. intros H.
    apply Forall2_cons_1 in H as [_ H].
    apply Forall2_cons_1 in H as [(email & _ & Heq) _].
    discriminate Heq.
Qed.

Lemma one_error_then_close_witness :
  processRecords false false [letterA; letterB; letterC] (mkWorld refusingSecond []) =
    ((processRecords false false [letterA; letterB] (mkWorld refusingSecond [])).1, Return) ∧
  ∃ pre r post,
    [letterA; letterB; letterC] = pre ++ r :: post ∧
    (processRecords false false pre (mkWorld refusingSecond [])).2 = Next ∧
    ∀ post', processRecords false false (pre ++ r :: post') (mkWorld refusingSecond []) =
             ((processRecords false false [letterA; letterB] (mkWorld refusingSecond [])).1, Return).
Proof.
  assert (processRecords false false [letterA; letterB; letterC] (mkWorld refusingSecond []) =
    ((processRecords false false [letterA; letterB] (mkWorld refusingSecond [])).1, Return)) as Hrun
    by (vm_compute; reflexivity).
  split; [exact Hrun|].
  exact (proj2 (proj2 (proj2 (one_error_then_close "ALL" None false false refusingSecond)))
           _ _ _ Hrun).
Defined.

Lemma unread_store_follows_each_email_witness :
  stream (events (generateMail "ALL" None false false refusingSecond).1) =
    (emailResponse <$> omap parse [letterA] ++ [emailB]) ++
    [errResponse ("unable to remove seen flag: " +:+ "NO")] ∧
  (∃ evs0,
     events (generateMail "ALL" None false false refusingSecond).1 =
       evs0 ++ [EvSend (emailResponse emailB);
                EvCmd (unreadStore emailB) (Some "NO");
                EvSend (errResponse ("unable to remove seen flag: " +:+ "NO"));
                EvClose]) ∧
  sess (generateMail "ALL" None false false refusingSecond).1 = refusingSecond.
Proof.
  apply (proj2 (proj2 (unread_store_follows_each_email "ALL" None false refusingSecond))
           refusingSecond [[1; 2]; [3]] refusingSecond [letterA] letterB [letterC]
           (history false false [letterA] refusingSecond).1).
  - reflexivity.
  - vm_compute. reflexivity.
  - reflexivity.
  - vm_compute. reflexivity.
  - vm_compute. reflexivity.
  - vm_compute. reflexivity.
Defined.

Lemma partial_record_is_skipped_witness :
  (∀ w : World Script MailMessage,
     processRecords false true ([letterA] ++ flagsOnly 9 :: [letterB]) w =
     processRecords false true ([letterA] ++ [letterB]) w) ∧
  emitsAll ([letterA] ++ [letterB])
    (events (generateMail "UNSEEN" None false true (withPartial ∅)).1) ∧
  length (stream (events (generateMail "UNSEEN" None false true (withPartial ∅)).1)) =
    length ([letterA] ++ [letterB]) ∧
  Forall noErr (stream (events (generateMail "UNSEEN" None false true (withPartial ∅)).1)).
Proof.
  destruct (partial_record_is_skipped (Conn:=Script) (Msg:=MailMessage)
              false true [letterA] (flagsOnly 9) [letterB]) as [Hloop Hcall].
  { vm_compute. reflexivity. }
  split; [exact Hloop|].
  apply (Hcall "UNSEEN" None (withPartial ∅) (withPartial ∅) [[1; 2]] (withPartial ∅)).
  - reflexivity.
  - vm_compute. reflexivity.
  - reflexivity.
  - repeat constructor; vm_compute; eexists; reflexivity.
  - vm_compute. repeat constructor.
Defined.

(** C4 as stated fails: two well-formed records with a flags-only record
    between them are fetched, the session refuses the store on the first,
    and the stream carries one email and an error instead of the two
    emails. *)
Lemma partial_record_store_refused_one_email_of_two :
  UIDFetch (collectUIDs [[1; 2]]).1 fetchItems (withPartial {[ 1 ]}) =
    (withPartial {[ 1 ]}, inr ([letterA] ++ flagsOnly 9 :: [letterB])) ∧
  flagsOnly 9 !! "RFC822.HEADER" = None ∧
  Forall wellFormed [letterA; letterB] ∧
  stream (events (generateMail "ALL" None false false (withPartial {[ 1 ]})).1) =
    [emailResponse emailA; errResponse "unable to remove seen flag: NO"] ∧
  ¬ emitsAll [letterA; letterB]
      (events (generateMail "ALL" None false false (withPartial {[ 1 ]})).1).
Proof.
  assert (stream (events (generateMail "ALL" None false false (withPartial {[ 1 ]})).1) =
    [emailResponse emailA; errResponse "unable to remove seen flag: NO"]) as Hstream
    by (vm_compute; reflexivity).
  split_and!; try reflexivity; try done.
  - repeat constructor; vm_compute; eexists; reflexivity.
  - unfold emitsAll. rewrite Hstream. intros H.
    apply Forall2_cons_1 in H as [_ H].
    apply Forall2_cons_1 in H as [(email & _ & Heq) _].
    discriminate Heq.
Qed.


Lemma empty_search_closes_stream_witness :
  generateMail (Msg:=MailMessage) "" (Some (mkTime 2024 April 2)) false true inbox =
    (mkWorld inbox [EvCmd (CSearch (searchSpecs "" (Some (mkTime 2024 April 2)))) None; EvClose],
     None) ∧
  stream (events (generateMail (Msg:=MailMessage) "" (Some (mkTime 2024 April 2)) false true inbox).1) = [] ∧
  commands (events (generateMail (Msg:=MailMessage) "" (Some (mkTime 2024 April 2)) false true inbox).1) =
    [CSearch (searchSpecs "" (Some (mkTime 2024 April 2)))] ∧
  closes (events (generateMail (Msg:=MailMessage) "" (Some (mkTime 2024 April 2)) false true inbox).1) = 1%nat.
Proof.
  apply (empty_search_closes_stream (Msg:=MailMessage) "" (Some (mkTime 2024 April 2))
           false true inbox inbox [[]]).
  - vm_compute. reflexivity.
  - reflexivity.
Defined.

Lemma generators_return_nil_witness :
  stream (events (generateMail (Msg:=MailMessage) "UNSEEN" None true false lostConnection).1) =
    [errResponse ("uid search failed: " +:+ "connection lost")].
Proof.
  apply (proj1 (proj2 (proj2 (proj2 (proj2 (proj2
    (generators_return_nil (Msg:=MailMessage) true false lostConnection))))
    "UNSEEN" None)) lostConnection "connection lost").
  reflexivity.
Defined.


(** * Further properties *)

(** ** More on the loop over the fetched records *)

Ltac loop_cases m d r :=
  unfold processRecord, SetAsUnread, DeleteEmail, alterEmail, parse; simpl;
  destruct (r !! "RFC822.HEADER") eqn:?; simpl;
  [destruct (newEmail r) as [?email|?perr] eqn:?; simpl;
   [destruct m, d; simpl;
    repeat match goal with
           | |- context [UIDStore ?a ?b ?f ?s] =>
               destruct (UIDStore a b f s) as [? [?|]] eqn:?; simpl
           end|]|].

Section MoreLoop.
Context {Conn Msg : Type} `{!Session Conn, !MailReader Msg}.
Implicit Types (w : World Conn Msg) (evs : list (Event Msg)) (c : Conn).



Lemma stream_cmd cmd err evs : stream (EvCmd cmd err :: evs) = stream evs.
Proof. done. Qed.

Lemma stream_send r evs : stream (EvSend r :: evs) = r :: stream evs.
Proof. done. Qed.

(** The emails sent are the emails of the first records, in their order. *)
Lemma history_sent_prefix m d data c :
  sentEmails (events (history m d data c).1) `prefix_of` omap parse data.
Proof.
  revert c. induction data as [|r data IH]; intros c; [done|].
  rewrite history_cons.
  generalize (λ c', IH c'). clear IH. unfold sentEmails, stream.
  loop_cases m d r; intros IH; simpl; auto using prefix_nil;
    apply prefix_cons; auto using prefix_nil.
Qed.

Lemma history_storesTargetLast m d data c sent tail :
  (∀ sent', storesTargetLast sent' tail = true) →
  storesTargetLast sent (events (history m d data c).1 ++ tail) = true.
Proof.
  intros Htail. revert c sent. induction data as [|r data IH]; intros c sent.
  { apply Htail. }
  rewrite history_cons.
  generalize (λ c', IH c'). clear IH.
  loop_cases m d r; intros IH; simpl; unfold unreadStore, deleteStore;
    rewrite ?bool_decide_true by auto; simpl; auto.
Qed.

(** Without an error among the responses the loop has reached its end. *)
Lemma history_noErr_Next m d data c :
  Forall noErr (stream (events (history m d data c).1)) →
  (history m d data c).2 = Next.
Proof.
  intros Hno. destruct (history m d data c).2 eqn:Hflow; [done|].
  apply history_Return_shape in Hflow as (evs0 & err & Heq & _).
  rewrite Heq, stream_app in Hno. apply Forall_app in Hno as [_ Hno].
  apply Forall_cons in Hno as [Hno _]. discriminate Hno.
Qed.


(** A loop that neither unmarks nor deletes issues no command. *)
Lemma history_no_store data c :
  commands (events (history true false data c).1) = [].
Proof.
  revert c. induction data as [|r data IH]; intros c; [done|].
  rewrite history_cons.
  generalize (λ c', IH c'). clear IH. unfold commands.
  unfold processRecord, parse; simpl.
  destruct (r !! "RFC822.HEADER"); simpl; [|done].
  destruct (newEmail r); simpl; auto.
Qed.

Lemma failsOnce_cons cmd e ev evs :
  failed ev = false → failsOnce cmd e evs → failsOnce cmd e (ev :: evs).
Proof.
  intros Hev (evs0 & -> & Hok). exists (ev :: evs0). split; [done|by constructor].
Qed.

Lemma failsOnce_two cmd e :
  failsOnce (Msg:=Msg) cmd e
    [EvCmd cmd (Some e); EvSend (errResponse (errPrefix cmd +:+ e))].
Proof. exists []. split; [done|constructor]. Qed.

(** A command that fails in the loop is the only one that fails, and is
    the last one. *)
Lemma history_failsOnce m d data c cmd e :
  EvCmd cmd (Some e) ∈ events (history m d data c).1 →
  failsOnce cmd e (events (history m d data c).1).
Proof.
  revert c. induction data as [|r data IH]; intros c.
  { by intros ?%elem_of_nil. }
  rewrite history_cons.
  generalize (λ c', IH c'). clear IH.
  loop_cases m d r; intros IH Hin; simpl in *; auto;
    repeat (apply elem_of_cons in Hin as [Heq|Hin];
            [try discriminate Heq; try (injection Heq as -> ->)|]);
    try (by apply elem_of_nil in Hin);
    repeat (first [apply failsOnce_two | apply failsOnce_cons; [done|]]); auto.
Qed.

(** The loop reads three items of a record. *)
Lemma newEmail_items (r r' : FieldMap) :
  Forall (λ k, r' !! k = r !! k) itemsRead → newEmail r' = newEmail r.
Proof.
  intros H. apply Forall_cons in H as [Hh H]. apply Forall_cons in H as [Hb H].
  apply Forall_cons in H as [Hu _]. unfold newEmail, index.
  by rewrite Hh, Hb, Hu.
Qed.
End MoreLoop.

(** ** More on the retrieval call *)

Section MoreRetrieval.
Context {Conn Msg : Type} `{!Session Conn, !MailReader Msg}.
Implicit Types (c : Conn) (evs : list (Event Msg)).

Lemma noErr_sent (rs : list (Response Msg)) :
  Forall noErr rs →
  emailResponse <$>
    omap (λ r, match Err r with None => Some (REmail r) | Some _ => None end) rs = rs.
Proof.
  induction 1 as [|[email err] rs Hr _ IH]; [done|].
  unfold noErr in Hr. simpl in Hr. subst err.
  rewrite <- IH at 2. done.
Qed.

Lemma sentEmails_app evs1 evs2 :
  sentEmails (evs1 ++ evs2) = sentEmails evs1 ++ sentEmails evs2.
Proof. unfold sentEmails. by rewrite stream_app, omap_app. Qed.

(** Before the close the responses are emails, or emails and then one
    error. *)
Lemma generateMail_shape search since m d c :
  ∃ evs0,
    events (generateMail search since m d c).1 = evs0 ++ [EvClose] ∧
    (Forall noErr (stream evs0) ∨ endsInError evs0).
Proof.
  rewrite generateMail_events, worker_events; simpl.
  destruct (UIDSearch _ c) as [c1 [err|data]]; simpl.
  { eexists [_; _]. split; [done|]. right.
    apply endsInError_cons; [constructor|apply endsInError_one]. }
  destruct (Empty _); simpl.
  { eexists [_]. split; [done|]. left. constructor. }
  destruct (UIDFetch _ _ c1) as [c2 [err|fdata]]; simpl.
  { eexists [_; _; _]. split; [done|]. right.
    do 2 (apply endsInError_cons; [constructor|]). apply endsInError_one. }
  eexists (_ :: _ :: _). split; [done|].
  destruct (history m d fdata c2).2 eqn:Hflow.
  - left. apply history_Next_noErr, Hflow.
  - right. do 2 (apply endsInError_cons; [constructor|]).
    apply history_Return_shape, Hflow.
Qed.

(** The stream is the emails sent, then the last error if there is one. *)
Lemma generateMail_stream search since m d c :
  stream (events (generateMail search since m d c).1) =
  (emailResponse <$> sentEmails (events (generateMail search since m d c).1)) ++
  match lastError (events (generateMail search since m d c).1) with
  | Some e => [errResponse e]
  | None => []
  end.
Proof.
  destruct (generateMail_shape search since m d c) as (evs0 & -> & [Hno|Hend]).
  - unfold lastError, sentEmails. rewrite stream_app. simpl.
    rewrite (right_id_L [] (++)), noErr_sent by done.
    destruct (last (stream evs0)) as [r|] eqn:Hlast; simpl.
    + apply last_Some in Hlast as [rs Hrs]. rewrite Hrs in Hno.
      apply Forall_app in Hno as [_ Hno]. apply Forall_cons in Hno as [Hr _].
      rewrite Hr. by rewrite (right_id_L [] (++)).
    + by rewrite (right_id_L [] (++)).
  - destruct Hend as (evs1 & err & -> & Hno).
    unfold lastError, sentEmails. rewrite !stream_app. simpl.
    rewrite (right_id_L [] (++)), last_snoc, omap_app. simpl.
    by rewrite (right_id_L [] (++)), noErr_sent.
Qed.

Lemma drain_emails (acc emails : list (Email Msg)) (rest : list (Response Msg)) :
  drain acc ((emailResponse <$> emails) ++ rest) = drain (acc ++ emails) rest.
Proof.
  revert acc. induction emails as [|email emails IH]; intros acc; simpl.
  - by rewrite (right_id_L [] (++)).
  - rewrite IH. by rewrite <- (assoc_L (++)).
Qed.

(** X1: whatever fails, the emails a call sends are those of the first
    records the fetch returned that have a header, in the order of the
    records and without gaps or repeats, and the stream is these emails
    followed by at most one error. *)
Theorem sent_emails_are_a_prefix search since m d c c1 data c2 fdata :
  UIDSearch (searchSpecs search since) c = (c1, inr data) →
  Empty (collectUIDs data).1 = false →
  UIDFetch (collectUIDs data).1 fetchItems c1 = (c2, inr fdata) →
  sentEmails (events (generateMail search since m d c).1) `prefix_of` omap parse fdata ∧
  stream (events (generateMail search since m d c).1) =
    (emailResponse <$> sentEmails (events (generateMail search since m d c).1)) ++
    match lastError (events (generateMail search since m d c).1) with
    | Some e => [errResponse e]
    | None => []
    end.
Proof.
  intros Hs He Hf. split; [|apply generateMail_stream].
  rewrite (generateMail_fetched _ _ _ _ _ _ _ _ _ Hs He Hf).
  change (sentEmails (?a :: ?b :: ?l)) with (sentEmails l).
  rewrite sentEmails_app. change (sentEmails [EvClose]) with (@nil (Email Msg)).
  rewrite (right_id_L [] (++)). apply history_sent_prefix.
Qed.

(** X2: every store of a call is on the one number of the email sent last
    before it and either takes the seen flag off or puts the deleted flag
    on; no store precedes the first email, and the seen flag is never
    set. *)
Theorem stores_only_on_sent_emails search since m d c :
  storesTargetLast None (events (generateMail search since m d c).1) = true.
Proof.
  rewrite generateMail_events, worker_events; simpl.
  destruct (UIDSearch _ c) as [c1 [err|data]]; simpl; [done|].
  destruct (Empty _); [done|]. simpl.
  destruct (UIDFetch _ _ c1) as [c2 [err|fdata]]; simpl; [done|].
  by apply history_storesTargetLast.
Qed.


(** X4: a call with markAsRead and without delete changes nothing in the
    mailbox of its own: it issues no store at all. *)
Theorem plain_retrieval_issues_no_store search since c :
  List.filter isStoreCmd (commands (events (generateMail search since true false c).1)) = [].
Proof.
  rewrite generateMail_events, worker_events; simpl.
  destruct (UIDSearch _ c) as [c1 [err|data]]; simpl; [done|].
  destruct (Empty _); [done|]. simpl.
  destruct (UIDFetch _ _ c1) as [c2 [err|fdata]]; simpl; [done|].
  by rewrite commands_app, history_no_store.
Qed.

(** X5: when the store that marks the record [r] deleted fails, the
    records before it having gone through and the seen flag of [r] having
    been taken off if that was asked for, the stream is the emails up to
    and including that of [r] and then the error of the store; the session
    stays as the failed store left it. *)
Theorem delete_failure_ends_the_stream search since m c c1 data c2 pre r post w1 email c3 c4 e :
  UIDSearch (searchSpecs search since) c = (c1, inr data) →
  Empty (collectUIDs data).1 = false →
  UIDFetch (collectUIDs data).1 fetchItems c1 = (c2, inr (pre ++ r :: post)) →
  history m true pre c2 = (w1, Next) →
  parse r = Some email →
  (if m then (sess w1, None)
   else UIDStore (AddNum ∅ (AsNumber (ID email))) "-FLAGS" "\SEEN" (sess w1)) = (c3, None) →
  UIDStore (AddNum ∅ (AsNumber (ID email))) "+FLAGS" "\DELETED" c3 = (c4, Some e) →
  stream (events (generateMail search since m true c).1) =
    (emailResponse <$> omap parse pre ++ [email]) ++
    [errResponse ("unable to delete email: " +:+ e)] ∧
  (∃ evs0,
     events (generateMail search since m true c).1 =
       evs0 ++ [EvCmd (deleteStore email) (Some e);
                EvSend (errResponse ("unable to delete email: " +:+ e));
                EvClose]) ∧
  sess (generateMail search since m true c).1 = c4.
Proof.
  intros Hs He Hf Hpre Hr Hun Hdel.
  assert (∃ evs1, history m true (pre ++ r :: post) c2 =
    (mkWorld c4 (events w1 ++ EvSend (emailResponse email) :: evs1 ++
       [EvCmd (deleteStore email) (Some e);
        EvSend (errResponse ("unable to delete email: " +:+ e))]), Return) ∧
    stream evs1 = []) as (evs1 & Hh & Hevs1).
  { unfold history in *. rewrite processRecords_app, Hpre. simpl.
    revert Hr. unfold parse, processRecord, SetAsUnread, DeleteEmail, alterEmail.
    destruct (r !! "RFC822.HEADER"); [|done].
    destruct (newEmail r) as [email'|]; [|done]. intros [= ->].
    destruct m; simpl in *.
    - injection Hun as <-. rewrite Hdel. simpl.
      exists []. split; [|done]. unfold issue, send, emit; simpl.
      by rewrite <- !(assoc_L (++)).
    - rewrite Hun. simpl. rewrite Hdel. simpl.
      eexists [_]. split.
      + unfold issue, send, emit; simpl. by rewrite <- !(assoc_L (++)).
      + done. }
  pose proof (history_Next m true pre c2) as Hstream.
  rewrite Hpre in Hstream. simpl in Hstream. specialize (Hstream eq_refl).
  split_and!.
  - rewrite (generateMail_fetched _ _ _ _ _ _ _ _ _ Hs He Hf), Hh. cbn [fst events].
    rewrite !stream_cmd, !stream_app, stream_send, !stream_app, Hstream, Hevs1, fmap_app.
    simpl. by rewrite <- !(assoc_L (++)).
  - rewrite (generateMail_fetched _ _ _ _ _ _ _ _ _ Hs He Hf), Hh. simpl.
    eexists (_ :: _ :: events w1 ++ _ :: evs1). simpl.
    rewrite <- !(assoc_L (++)). simpl. by rewrite <- !(assoc_L (++)).
  - by rewrite (generateMail_sess_fetched _ _ _ _ _ _ _ _ _ Hs He Hf), Hh.
Qed.

(** X6: when the record [r] has a header that cannot be parsed, the records
    before it having gone through, the stream is the emails of those
    records and then the error of the parser; no email is sent and no
    store issued for [r], and the session stays as it was before [r]. *)
Theorem parse_failure_ends_the_stream search since m d c c1 data c2 pre r post w1 e :
  UIDSearch (searchSpecs search since) c = (c1, inr data) →
  Empty (collectUIDs data).1 = false →
  UIDFetch (collectUIDs data).1 fetchItems c1 = (c2, inr (pre ++ r :: post)) →
  history m d pre c2 = (w1, Next) →
  is_Some (r !! "RFC822.HEADER") →
  ReadMessage (Msg:=Msg)
    (AsBytes (index r "RFC822.HEADER") +:+ bytes [10; 10] +:+ AsBytes (index r "BODY[]")) =
    inr e →
  events (generateMail search since m d c).1 =
    EvCmd (CSearch (searchSpecs search since)) None ::
    EvCmd (CFetch (collectUIDs data).1 fetchItems) None ::
    events w1 ++
    [EvSend (errResponse ("unable to parse email: unable to read header: " +:+ e));
     EvClose] ∧
  stream (events (generateMail search since m d c).1) =
    (emailResponse <$> omap parse pre) ++
    [errResponse ("unable to parse email: unable to read header: " +:+ e)] ∧
  sess (generateMail search since m d c).1 = sess w1.
Proof.
  intros Hs He Hf Hpre [h Hh] Hread.
  assert (history m d (pre ++ r :: post) c2 =
    (mkWorld (sess w1) (events w1 ++
       [EvSend (errResponse ("unable to parse email: unable to read header: " +:+ e))]),
     Return)) as Hhist.
  { unfold history in *. rewrite processRecords_app, Hpre. simpl.
    unfold processRecord, newEmail. by rewrite Hh, Hread. }
  pose proof (history_Next m d pre c2) as Hstream.
  rewrite Hpre in Hstream. simpl in Hstream. specialize (Hstream eq_refl).
  assert (events (generateMail search since m d c).1 =
    EvCmd (CSearch (searchSpecs search since)) None ::
    EvCmd (CFetch (collectUIDs data).1 fetchItems) None ::
    events w1 ++
    [EvSend (errResponse ("unable to parse email: unable to read header: " +:+ e));
     EvClose]) as Hevs.
  { rewrite (generateMail_fetched _ _ _ _ _ _ _ _ _ Hs He Hf), Hhist. simpl.
    by rewrite <- !(assoc_L (++)). }
  split_and!; [done| |].
  - rewrite Hevs, !stream_cmd, stream_app, Hstream. done.
  - by rewrite (generateMail_sess_fetched _ _ _ _ _ _ _ _ _ Hs He Hf), Hhist.
Qed.
End MoreRetrieval.

Section Failures.
Context {Conn Msg : Type} `{!Session Conn, !MailReader Msg}.
Implicit Types (c : Conn) (evs : list (Event Msg)).

(** X7: when the fetch fails, the call has issued the search and the fetch
    and nothing more; the one response is the error of the fetch, and the
    session is left as the failed fetch left it. *)
Theorem fetch_failure_is_the_only_response search since m d c c1 data c2 e :
  UIDSearch (searchSpecs search since) c = (c1, inr data) →
  Empty (collectUIDs data).1 = false →
  UIDFetch (collectUIDs data).1 fetchItems c1 = (c2, inl e) →
  generateMail (Msg:=Msg) search since m d c =
    (mkWorld c2
       [EvCmd (CSearch (searchSpecs search since)) None;
        EvCmd (CFetch (collectUIDs data).1 fetchItems) (Some e);
        EvSend (errResponse ("unable to perform uid fetch: " +:+ e));
        EvClose],
     None).
Proof.
  intros Hs He Hf. unfold generateMail, worker, findEmails, getEmails; simpl.
  rewrite Hs; simpl.
  destruct (collectUIDs data) as [seq n]; simpl in *. by rewrite He, Hf.
Qed.

(** X8: a search that finds numbers is followed by one fetch, on the set of
    all the numbers of all its responses, for the four items; no call
    fetches twice. *)
Theorem one_fetch_of_all_found search since m d c c1 data :
  UIDSearch (searchSpecs search since) c = (c1, inr data) →
  concat data ≠ [] →
  (∃ err rest,
     events (generateMail (Msg:=Msg) search since m d c).1 =
       EvCmd (CSearch (searchSpecs search since)) None ::
       EvCmd (CFetch (list_to_set (concat data))
                     ["INTERNALDATE"; "BODY[]"; "UID"; "RFC822.HEADER"]) err ::
       rest ∧
     List.filter isFetch (commands rest) = []).
Proof.
  intros Hs Hne. rewrite generateMail_events, worker_events; simpl. rewrite Hs.
  rewrite Empty_collectUIDs, bool_decide_false by done.
  rewrite collectUIDs_set.
  destruct (UIDFetch _ _ c1) as [c2 [e|fdata]]; simpl.
  { by eexists _, _. }
  eexists _, _. split; [done|].
  rewrite commands_app, List.filter_app. simpl. rewrite (right_id_L [] (++)).
  pose proof (history_commands m d fdata c2) as Hst.
  induction Hst as [|cmd cmds Hcmd _ IH]; [done|].
  destruct cmd; simpl; done.
Qed.

(** X9: no command is tried again and none follows a failed one: a command
    that fails is the only one of the call that fails and the last one
    issued, the response after it carries its error under the message of
    its kind, and the close comes next. *)
Theorem failed_command_is_the_last search since m d c cmd e :
  EvCmd cmd (Some e) ∈ events (generateMail (Msg:=Msg) search since m d c).1 →
  ∃ evs0,
    events (generateMail (Msg:=Msg) search since m d c).1 =
      evs0 ++ [EvCmd cmd (Some e); EvSend (errResponse (errPrefix cmd +:+ e)); EvClose] ∧
    Forall (λ ev, failed ev = false) evs0.
Proof.
  rewrite generateMail_events, worker_events; simpl.
  destruct (UIDSearch _ c) as [c1 [err|data]]; simpl.
  { intros Hin.
    repeat (apply elem_of_cons in Hin as [Heq|Hin];
            [try discriminate Heq; try (injection Heq as -> ->)|]);
      [|by apply elem_of_nil in Hin].
    exists []. split; [done|constructor]. }
  destruct (Empty _); simpl.
  { intros Hin.
    repeat (apply elem_of_cons in Hin as [Heq|Hin]; [discriminate Heq|]).
    by apply elem_of_nil in Hin. }
  destruct (UIDFetch _ _ c1) as [c2 [err|fdata]]; simpl.
  { intros Hin.
    repeat (apply elem_of_cons in Hin as [Heq|Hin];
            [try discriminate Heq; try (injection Heq as -> ->)|]);
      [|by apply elem_of_nil in Hin].
    eexists [_]. split; [done|]. by repeat constructor. }
  intros Hin.
  do 2 (apply elem_of_cons in Hin as [Heq|Hin]; [discriminate Heq|]).
  apply elem_of_app in Hin as [Hin|Hin].
  - apply history_failsOnce in Hin as (evs0 & Heq & Hok).
    exists (EvCmd (CSearch (searchSpecs search since)) None ::
            EvCmd (CFetch (collectUIDs data).1 fetchItems) None :: evs0).
    split.
    + rewrite Heq. simpl. by rewrite <- (assoc_L (++)).
    + by repeat (constructor; [done|]).
  - apply elem_of_cons in Hin as [Heq|Hin]; [discriminate Heq|].
    by apply elem_of_nil in Hin.
Qed.

(** X10: the loop reads the header, the body and the number of a record
    and nothing else: records that agree on these three items are treated
    alike, so the internal date that is fetched has no effect. *)
Theorem only_three_items_are_read m d (f : FieldMap → FieldMap) data (w : World Conn Msg) :
  (∀ r k, k ∈ itemsRead → f r !! k = r !! k) →
  processRecords m d (f <$> data) w = processRecords m d data w.
Proof.
  intros Hf. revert w. induction data as [|r data IH]; intros w; simpl; [done|].
  assert (processRecord m d (f r) w = processRecord m d r w) as ->.
  { unfold processRecord.
    rewrite (newEmail_items r (f r)) by (apply Forall_forall; intros k Hk; by apply Hf).
    rewrite Hf by (by left). done. }
  destruct (processRecord m d r w) as [w1 []]; [apply IH|done].
Qed.

(** X11: a record that has a header but no UID item still gives an email,
    whose ID is nil; the store that takes the seen flag off it is issued on
    the number 0. *)
Theorem record_without_uid d r h email (w : World Conn Msg) :
  r !! "RFC822.HEADER" = Some h →
  r !! "UID" = None →
  newEmail r = inl email →
  ID email = FNil ∧
  ∃ err rest,
    events (processRecord false d r w).1 =
      events w ++ EvSend (emailResponse email) ::
                  EvCmd (CStore {[ 0 ]} "-FLAGS" "\SEEN") err :: rest.
Proof.
  intros Hh Hu Hn.
  assert (ID email = FNil) as Hid.
  { revert Hn. unfold newEmail, index. rewrite Hu. simpl.
    destruct (ReadMessage _); [|done]. by intros [= <-]. }
  split; [done|].
  unfold processRecord, SetAsUnread, DeleteEmail, alterEmail. rewrite Hh, Hn, Hid. simpl.
  assert (AddNum ∅ 0 = ({[ 0 ]} : gset N)) as -> by (unfold AddNum; set_solver).
  destruct (UIDStore {[ 0 ]} "-FLAGS" "\SEEN" (sess w)) as [c1 [e|]]; simpl.
  { eexists _, [_]. by rewrite <- !(assoc_L (++)). }
  destruct d; simpl.
  - destruct (UIDStore _ _ _ c1) as [c2 [e|]]; simpl.
    + eexists _, [_; _]. by rewrite <- !(assoc_L (++)).
    + eexists _, [_]. by rewrite <- !(assoc_L (++)).
  - eexists _, []. by rewrite <- !(assoc_L (++)).
Qed.
End Failures.

(** ** The calls that return a list *)

Section Lists.
Context {Conn Msg : Type} `{!Session Conn, !MailReader Msg}.
Implicit Types (c : Conn) (evs : list (Event Msg)).

Lemma drain_generateMail search since m d c :
  drain [] (stream (events (generateMail search since m d c).1)) =
  (sentEmails (events (generateMail search since m d c).1),
   lastError (events (generateMail search since m d c).1)).
Proof.
  rewrite generateMail_stream at 1. rewrite drain_emails. simpl.
  by destruct (lastError _).
Qed.

Lemma lastError_noErr search since m d c :
  lastError (events (generateMail search since m d c).1) = None ↔
  Forall noErr (stream (events (generateMail search since m d c).1)).
Proof.
  split.
  - intros Hlast. rewrite generateMail_stream, Hlast, (right_id_L [] (++)).
    apply Forall_fmap, Forall_true. done.
  - intros Hno. unfold lastError.
    destruct (last (stream _)) as [r|] eqn:Hlast; [|done]. simpl.
    apply last_Some in Hlast as [rs Hrs]. rewrite Hrs in Hno.
    apply Forall_app in Hno as [_ Hno]. by apply Forall_cons in Hno as [Hr _].
Qed.

(** X12: [GetAll], [GetUnread] and [GetSince] return every email that was
    sent on the channel, in order, together with the error of the last
    response if it carries one: on a failure the list holds the emails
    received before it and is not given up. *)
Theorem lists_hold_what_was_sent m d c since :
  GetAll m d c =
    (sentEmails (events (GenerateAll m d c).1), lastError (events (GenerateAll m d c).1)) ∧
  GetUnread m d c =
    (sentEmails (events (GenerateUnread m d c).1),
     lastError (events (GenerateUnread m d c).1)) ∧
  GetSince since m d c =
    (sentEmails (events (GenerateSince since m d c).1),
     lastError (events (GenerateSince since m d c).1)).
Proof.
  split_and!.
  - apply (drain_generateMail "ALL" None).
  - apply (drain_generateMail "UNSEEN" None).
  - apply (drain_generateMail "" (Some since)).
Qed.

(** X13: [GetAll] returns a nil error exactly when no response of the call
    carries an error; and when it does so after a fetch, its list is the
    emails of all the fetched records that have a header, in the order of
    the records. *)
Theorem GetAll_without_error m d c :
  ((GetAll m d c).2 = None ↔ Forall noErr (stream (events (GenerateAll m d c).1))) ∧
  (∀ c1 data c2 fdata,
     UIDSearch ["ALL"] c = (c1, inr data) →
     Empty (collectUIDs data).1 = false →
     UIDFetch (collectUIDs data).1 fetchItems c1 = (c2, inr fdata) →
     (GetAll m d c).2 = None →
     (GetAll m d c).1 = omap parse fdata).
Proof.
  assert (GetAll m d c =
    (sentEmails (events (GenerateAll m d c).1), lastError (events (GenerateAll m d c).1)))
    as Hget by apply (drain_generateMail "ALL" None).
  rewrite Hget. cbn [fst snd]. split; [apply (lastError_noErr "ALL" None)|].
  intros c1 data c2 fdata Hs He Hf Hlast.
  apply (lastError_noErr "ALL" None) in Hlast. unfold GenerateAll in *.
  rewrite (generateMail_fetched "ALL" None _ _ _ _ _ _ _ Hs He Hf) in *.
  rewrite !stream_cmd, stream_app in Hlast. apply Forall_app in Hlast as [Hno _].
  pose proof (history_noErr_Next _ _ _ _ Hno) as Hflow.
  change (sentEmails (?a :: ?b :: ?l)) with (sentEmails l).
  rewrite sentEmails_app. change (sentEmails [EvClose]) with (@nil (Email Msg)).
  rewrite (right_id_L [] (++)). unfold sentEmails.
  rewrite history_Next by done.
  induction (omap parse fdata) as [|email emails IH]; [done|].
  rewrite <- IH at 2. done.
Qed.
End Lists.

(** ** More on the visible text *)

Lemma flatFlagStep_irrelevant st tok : relevant tok = false → flatFlagStep st tok = st.
Proof.
  destruct tok; simpl; try done; intros Hrel; by rewrite Hrel.
Qed.

Lemma foldl_flatFlagStep_filter st toks :
  foldl flatFlagStep st (List.filter relevant toks) = foldl flatFlagStep st toks.
Proof.
  revert st. induction toks as [|tok toks IH]; intros st; [done|]. simpl.
  destruct (relevant tok) eqn:Hrel; simpl; [apply IH|].
  by rewrite IH, flatFlagStep_irrelevant.
Qed.

(** The fragments gathered before do not influence what is gathered next. *)
Lemma foldl_flatFlagStep_frame flag frags toks :
  foldl flatFlagStep (mkExtractor flag frags) toks =
  mkExtractor (suppressed (foldl flatFlagStep (mkExtractor flag []) toks))
              (frags ++ fragments (foldl flatFlagStep (mkExtractor flag []) toks)).
Proof.
  revert flag frags. induction toks as [|tok toks IH]; intros flag frags; simpl.
  { by rewrite (right_id_L [] (++)). }
  destruct tok as [t|tn|tn| | |]; simpl; try apply IH.
  - destruct flag; [apply IH|]. case_bool_decide; [apply IH|].
    rewrite IH, (IH false [TrimSpace t]). cbn [suppressed fragments].
    by rewrite <- (assoc_L (++)).
  - case_bool_decide; apply IH.
  - case_bool_decide; apply IH.
Qed.

Lemma foldl_flatFlagStep_hidden frags toks :
  Forall (λ tok, isVisibleEnd tok = false) toks →
  foldl flatFlagStep (mkExtractor true frags) toks = mkExtractor true frags.
Proof.
  induction 1 as [|tok toks Htok _ IH]; [done|]. simpl.
  destruct tok as [t|tn|tn| | |]; simpl in *; try apply IH.
  - case_bool_decide; apply IH.
  - rewrite Htok. apply IH.
Qed.

Lemma trimLeft_None fuel runes s : stripRune runes s = None → trimLeft fuel runes s = s.
Proof. intros Hs. destruct fuel; [done|]. simpl. by rewrite Hs. Qed.

Lemma stripRune_None_intro runes s :
  (∀ r s', r ∈ runes → s ≠ r +:+ s') → stripRune runes s = None.
Proof.
  intros Hs. destruct (stripRune runes s) as [s'|] eqn:Hstrip; [|done].
  apply stripRune_Some in Hstrip as (r & Hr & ->). by destruct (Hs r s' Hr).
Qed.

(** Trimming what is trimmed changes nothing. *)
Lemma TrimSpace_idem (s : string) : TrimSpace (TrimSpace s) = TrimSpace s.
Proof.
  destruct (TrimSpace_trims s) as (_ & Hlead & Htrail).
  set (t := TrimSpace s) in *. unfold TrimSpace at 1.
  rewrite (trimLeft_None _ _ t) by (by apply stripRune_None_intro).
  rewrite trimLeft_None; [apply string_rev_involutive|].
  apply stripRune_None_intro. intros r' s' Hr' Heq.
  apply list_elem_of_In, in_map_iff in Hr' as (r & <- & Hr%list_elem_of_In).
  apply (Htrail r (String.rev s') Hr).
  by rewrite <- (string_rev_involutive t), Heq, string_rev_app, string_rev_involutive.
Qed.

Lemma foldl_flatFlagStep_count st toks :
  (length (fragments (foldl flatFlagStep st toks)) ≤
   length (fragments st) + length (List.filter isText toks))%nat.
Proof.
  revert st. induction toks as [|tok toks IH]; intros st; simpl; [lia|].
  etrans; [apply IH|].
  destruct tok; simpl; repeat case_match; simpl; rewrite ?length_app; simpl; lia.
Qed.

(** X14: only texts and the start and end tags of the eight non-visible
    names count: comments, doctype declarations, self-closing tags, even
    of those names, and every other tag can be taken out of the token
    stream without changing what [VisibleText] returns. *)
Theorem only_relevant_tokens_count toks e :
  VisibleTextOf (mkTokenizer (List.filter relevant toks) e) =
  VisibleTextOf (mkTokenizer toks e).
Proof.
  unfold VisibleTextOf. simpl.
  by rewrite !visibleTextLoop_flatFlag, foldl_flatFlagStep_filter.
Qed.

(** X15: the end tag of any non-visible name makes text visible again,
    whichever tags were open before it: what follows such an end tag is
    extracted as if the document started there. *)
Theorem end_tag_makes_visible toks1 tn toks2 e :
  tn ∈ nonVisible →
  (VisibleTextOf (mkTokenizer (toks1 ++ EndTagToken tn :: toks2) e)).1 =
  (VisibleTextOf (mkTokenizer toks1 e)).1 ++ (VisibleTextOf (mkTokenizer toks2 e)).1.
Proof.
  intros Htn. unfold VisibleTextOf. simpl.
  rewrite !visibleTextLoop_flatFlag. simpl. rewrite foldl_app. simpl.
  rewrite bool_decide_true by done.
  by rewrite foldl_flatFlagStep_frame.
Qed.

(** X16: after the start tag of a non-visible name nothing is extracted
    until the end tag of some non-visible name comes; when none comes, as
    after a meta tag that is never closed, all the text that follows is
    lost. *)
Theorem start_tag_hides_the_rest toks1 tn toks2 e :
  tn ∈ nonVisible →
  Forall (λ tok, isVisibleEnd tok = false) toks2 →
  VisibleTextOf (mkTokenizer (toks1 ++ StartTagToken tn :: toks2) e) =
  VisibleTextOf (mkTokenizer toks1 e).
Proof.
  intros Htn Hends. unfold VisibleTextOf. simpl.
  rewrite !visibleTextLoop_flatFlag. simpl. rewrite foldl_app. simpl.
  rewrite bool_decide_true by done.
  by rewrite foldl_flatFlagStep_hidden.
Qed.

(** X17: every fragment returned is left unchanged by trimming it again,
    and there are at most as many fragments as text tokens. *)
Theorem fragments_are_trimmed toks e :
  Forall (λ f, TrimSpace f = f) (VisibleTextOf (mkTokenizer toks e)).1 ∧
  (length (VisibleTextOf (mkTokenizer toks e)).1 ≤ length (List.filter isText toks))%nat.
Proof.
  unfold VisibleTextOf. simpl. rewrite visibleTextLoop_flatFlag. simpl. split.
  - apply foldl_flatFlagStep_Forall; [constructor|].
    intros t _ _. apply TrimSpace_idem.
  - apply (foldl_flatFlagStep_count (mkExtractor false [])).
Qed.

(** ** Connecting *)

Section MoreConnecting.
Context {Conn : Type} `{!Dialer Conn}.

Lemma configure_snoc (options : list (Client Conn → Client Conn)) option :
  configure (options ++ [option]) = option (configure options).
Proof. unfold configure. by rewrite foldl_app. Qed.

Lemma last_omap_snoc {A B} (f : A → option B) (l : list A) (x : A) :
  last (omap f (l ++ [x])) = match f x with Some y => Some y | None => last (omap f l) end.
Proof.
  rewrite omap_app. simpl. destruct (f x) as [y|]; simpl.
  - apply last_snoc.
  - by rewrite (right_id_L [] (++)).
Qed.

Lemma configure_settings (ss : list Setting) :
  configure (option_of <$> ss) =
  mkClient (Conn:=Conn) (lastTLS ss) (lastFolder ss) (lastReadOnly ss) None.
Proof.
  induction ss as [|s ss IH] using rev_ind; [done|].
  rewrite fmap_app. simpl. rewrite configure_snoc, IH.
  unfold lastTLS, lastFolder, lastReadOnly. rewrite !last_omap_snoc.
  by destruct s.
Qed.

(** X18: the options are applied in the order given and each sets one
    field: the client [New] works with has the folder, the read-only flag
    and the TLS flag of the last option that sets each, the empty folder
    name and false where there is none, and no connection yet. *)
Theorem last_option_of_each_kind_wins (ss : list Setting) :
  configure (option_of <$> ss) =
  mkClient (Conn:=Conn) (lastTLS ss) (lastFolder ss) (lastReadOnly ss) None.
Proof. apply configure_settings. Qed.

(** X19: [New] dials over TLS or in plain as the last TLS option says,
    logs in, and selects the folder named by the last folder option, the
    folder with the empty name when there is none, read-only as the last
    read-only option says.  It returns a client with a connection exactly
    when these three steps succeed, and then no error; when a step fails
    it returns the error of that step as it is, and a client without a
    connection that still carries the settings. *)
Theorem New_connects_in_three_steps host user pwd (ss : list Setting) :
  let dialled := if lastTLS ss then DialTLS host else Dial host in
  let settings := mkClient (Conn:=Conn) (lastTLS ss) (lastFolder ss) (lastReadOnly ss) None in
  (∀ conn,
     Imap (New host user pwd (option_of <$> ss)).1 = Some conn ↔
     ∃ conn0 conn1,
       dialled = inr conn0 ∧
       Login user pwd conn0 = (conn1, None) ∧
       Select (lastFolder ss) (lastReadOnly ss) conn1 = (conn, None)) ∧
  ((New host user pwd (option_of <$> ss)).2 = None ↔
   is_Some (Imap (New host user pwd (option_of <$> ss)).1)) ∧
  (∀ e, dialled = inl e → New host user pwd (option_of <$> ss) = (settings, Some e)) ∧
  (∀ conn0 conn1 e,
     dialled = inr conn0 → Login user pwd conn0 = (conn1, Some e) →
     New host user pwd (option_of <$> ss) = (settings, Some e)) ∧
  (∀ conn0 conn1 conn2 e,
     dialled = inr conn0 → Login user pwd conn0 = (conn1, None) →
     Select (lastFolder ss) (lastReadOnly ss) conn1 = (conn2, Some e) →
     New host user pwd (option_of <$> ss) = (settings, Some e)) ∧
  TLS (New host user pwd (option_of <$> ss)).1 = lastTLS ss ∧
  Folder (New host user pwd (option_of <$> ss)).1 = lastFolder ss ∧
  ReadOnly (New host user pwd (option_of <$> ss)).1 = lastReadOnly ss.
Proof.
  intros dialled settings. unfold New.
  rewrite configure_settings. fold settings. simpl. fold dialled.
  clearbody dialled.
  destruct dialled as [e|conn0]; simpl;
    [|destruct (Login user pwd conn0) as [conn1 [e|]] eqn:Hlogin; simpl;
      [|destruct (Select (lastFolder ss) (lastReadOnly ss) conn1)
          as [conn2 [e|]] eqn:Hsel; simpl]];
    split_and!; try done;
    try (intros; congruence);
    try (split; [done|by intros [? ?]]);
    try (split; [by eexists|done]);
    intros conn; (split; [try done|intros (? & ? & ? & ? & ?); congruence]).
  intros [= <-]. by exists conn0, conn1.
Qed.
End MoreConnecting.

(** ** Further runs on concrete sessions *)

Lemma sent_emails_are_a_prefix_witness :
  sentEmails (events (generateMail "ALL" None false false refusingSecond).1)
    `prefix_of` omap parse [letterA; letterB; letterC] ∧
  stream (events (generateMail "ALL" None false false refusingSecond).1) =
    (emailResponse <$> sentEmails (events (generateMail "ALL" None false false refusingSecond).1)) ++
    match lastError (events (generateMail "ALL" None false false refusingSecond).1) with
    | Some e => [errResponse e]
    | None => []
    end.
Proof.
  apply (sent_emails_are_a_prefix "ALL" None false false refusingSecond refusingSecond
           [[1; 2]; [3]] refusingSecond [letterA; letterB; letterC]).
  - reflexivity.
  - vm_compute. reflexivity.
  - reflexivity.
Defined.


Lemma delete_failure_ends_the_stream_witness :
  stream (events (generateMail "ALL" None true true refusingSecond).1) =
    (emailResponse <$> omap parse [letterA] ++ [emailB]) ++
    [errResponse ("unable to delete email: " +:+ "NO")] ∧
  (∃ evs0,
     events (generateMail "ALL" None true true refusingSecond).1 =
       evs0 ++ [EvCmd (deleteStore emailB) (Some "NO");
                EvSend (errResponse ("unable to delete email: " +:+ "NO"));
                EvClose]) ∧
  sess (generateMail "ALL" None true true refusingSecond).1 = refusingSecond.
Proof.
  apply (delete_failure_ends_the_stream "ALL" None true refusingSecond refusingSecond
           [[1; 2]; [3]] refusingSecond [letterA] letterB [letterC]
           (history true true [letterA] refusingSecond).1 emailB refusingSecond).
  - reflexivity.
  - vm_compute. reflexivity.
  - reflexivity.
  - vm_compute. reflexivity.
  - vm_compute. reflexivity.
  - vm_compute. reflexivity.
  - vm_compute. reflexivity.
Defined.

Lemma parse_failure_ends_the_stream_witness :
  events (generateMail "ALL" None false false badSecond).1 =
    EvCmd (CSearch (searchSpecs "ALL" None)) None ::
    EvCmd (CFetch (collectUIDs [[1; 2; 3]]).1 fetchItems) None ::
    events (history false false [letterA] badSecond).1 ++
    [EvSend (errResponse ("unable to parse email: unable to read header: " +:+
                          "malformed MIME header line: no colon here"));
     EvClose] ∧
  stream (events (generateMail "ALL" None false false badSecond).1) =
    (emailResponse <$> omap parse [letterA]) ++
    [errResponse ("unable to parse email: unable to read header: " +:+
                  "malformed MIME header line: no colon here")] ∧
  sess (generateMail "ALL" None false false badSecond).1 =
    sess (history false false [letterA] badSecond).1.
Proof.
  apply (parse_failure_ends_the_stream "ALL" None false false badSecond badSecond
           [[1; 2; 3]] badSecond [letterA] badHeader [letterC]).
  - reflexivity.
  - vm_compute. reflexivity.
  - reflexivity.
  - vm_compute. reflexivity.
  - vm_compute. eexists. reflexivity.
  - vm_compute. reflexivity.
Defined.

Lemma fetch_failure_is_the_only_response_witness :
  generateMail (Msg:=MailMessage) "UNSEEN" None false true failingFetch =
    (mkWorld failingFetch
       [EvCmd (CSearch (searchSpecs "UNSEEN" None)) None;
        EvCmd (CFetch (collectUIDs [[1]; [1; 2]]).1 fetchItems) (Some "fetch refused");
        EvSend (errResponse ("unable to perform uid fetch: " +:+ "fetch refused"));
        EvClose],
     None).
Proof.
  apply (fetch_failure_is_the_only_response "UNSEEN" None false true failingFetch failingFetch
           [[1]; [1; 2]] failingFetch "fetch refused").
  - reflexivity.
  - vm_compute. reflexivity.
  - reflexivity.
Defined.

Lemma one_fetch_of_all_found_witness :
  ∃ err rest,
    events (generateMail (Msg:=MailMessage) "UNSEEN" None false true failingFetch).1 =
      EvCmd (CSearch (searchSpecs "UNSEEN" None)) None ::
      EvCmd (CFetch (list_to_set (concat [[1]; [1; 2]]))
                    ["INTERNALDATE"; "BODY[]"; "UID"; "RFC822.HEADER"]) err ::
      rest ∧
    List.filter isFetch (commands rest) = [].
Proof.
  apply (one_fetch_of_all_found (Msg:=MailMessage) "UNSEEN" None false true
           failingFetch failingFetch [[1]; [1; 2]]).
  - reflexivity.
  - discriminate.
Defined.

Lemma failed_command_is_the_last_witness :
  ∃ evs0,
    events (generateMail (Msg:=MailMessage) "ALL" None false false refusingFirst).1 =
      evs0 ++ [EvCmd (unreadStore emailA) (Some "NO");
               EvSend (errResponse (errPrefix (unreadStore emailA) +:+ "NO"));
               EvClose] ∧
    Forall (λ ev, failed ev = false) evs0.
Proof.
  apply (failed_command_is_the_last (Msg:=MailMessage) "ALL" None false false refusingFirst).
  vm_compute. do 3 right. left.
Defined.

Lemma only_three_items_are_read_witness :
  processRecords false true (delete "INTERNALDATE" <$> [letterA; letterB])
    (mkWorld twoLetters []) =
  processRecords (Msg:=MailMessage) false true [letterA; letterB] (mkWorld twoLetters []).
Proof.
  apply (only_three_items_are_read false true (delete "INTERNALDATE")).
  intros r k Hk. apply lookup_delete_ne. intros <-.
  revert Hk. unfold itemsRead. rewrite !elem_of_cons, elem_of_nil.
  intros [?|[?|[?|[]]]]; discriminate.
Defined.

Lemma record_without_uid_witness :
  ID emailNoUid = FNil ∧
  ∃ err rest,
    events (processRecord false true noUid (mkWorld twoLetters [])).1 =
      events (mkWorld twoLetters []) ++
      EvSend (emailResponse emailNoUid) ::
      EvCmd (CStore {[ 0 ]} "-FLAGS" "\SEEN") err :: rest.
Proof.
  apply (record_without_uid true noUid (FBytes "Subject: a") emailNoUid (mkWorld twoLetters [])).
  - vm_compute. reflexivity.
  - vm_compute. reflexivity.
  - vm_compute. reflexivity.
Defined.

Lemma GetAll_without_error_witness :
  (GetAll false true twoLetters).2 = None ∧
  (GetAll false true twoLetters).1 = omap parse [letterA; letterB].
Proof.
  assert ((GetAll false true twoLetters).2 = None) as Hnil by (vm_compute; reflexivity).
  split; [exact Hnil|].
  apply (proj2 (GetAll_without_error false true twoLetters) twoLetters [[1; 2]] twoLetters).
  - reflexivity.
  - vm_compute. reflexivity.
  - reflexivity.
  - exact Hnil.
Defined.

Lemma end_tag_makes_visible_witness :
  (VisibleTextOf (mkTokenizer
     ([StartTagToken "head"; StartTagToken "style"; TextToken ".a{}"] ++
      EndTagToken "style" :: [TextToken " still in the head "; EndTagToken "head"]) EOF)).1 =
  (VisibleTextOf (mkTokenizer
     [StartTagToken "head"; StartTagToken "style"; TextToken ".a{}"] EOF)).1 ++
  (VisibleTextOf (mkTokenizer [TextToken " still in the head "; EndTagToken "head"] EOF)).1.
Proof.
  apply (end_tag_makes_visible
           [StartTagToken "head"; StartTagToken "style"; TextToken ".a{}"] "style").
  vm_compute. set_solver.
Defined.

Lemma start_tag_hides_the_rest_witness :
  VisibleTextOf (mkTokenizer
    ([TextToken "Dear all"] ++ StartTagToken "meta" ::
     [StartTagToken "p"; TextToken "never shown"; EndTagToken "p"]) EOF) =
  VisibleTextOf (mkTokenizer [TextToken "Dear all"] EOF).
Proof.
  apply (start_tag_hides_the_rest [TextToken "Dear all"] "meta").
  - vm_compute. set_solver.
  - repeat constructor.
Defined.

Lemma New_connects_in_three_steps_witness :
  Imap (New "mail.example.org" "me" "secret" (option_of <$> someSettings)).1 =
    Some "tls mail.example.org as me in [Archive] read-only" ∧
  New "mail.example.org" "nobody" "secret" (option_of <$> someSettings) =
    (mkClient true "Archive" true None, Some "NO login").
Proof.
  split.
  - apply (proj1 (New_connects_in_three_steps "mail.example.org" "me" "secret" someSettings)).
    exists "tls mail.example.org", "tls mail.example.org as me". by repeat split.
  - apply (proj1 (proj2 (proj2 (proj2
      (New_connects_in_three_steps "mail.example.org" "nobody" "secret" someSettings))))
      "tls mail.example.org" "tls mail.example.org"); reflexivity.
Defined.
